(** * Pyjion: instruction graph and abstract local state

    A shallow embedding of
    - the instruction-dependency graph ([InstructionGraph], its constructor
      and the passes [fixInstructions], [deoptimizeInstructions],
      [fixLocals], [fixEdges], and the accessors [getEdges] and
      [getEdgesFrom]);
    - the abstract local state of [absint.h] ([AbstractLocalInfo] and the
      stack operations of [InterpreterState]). *)

From Stdlib Require Import ZArith Lia.
From stdpp Require Import gmap list sorting.

Local Open Scope Z_scope.

(** ** Abstract value kinds *)

(** Modelled from the spec: [absvalue.h] is not among the sources.  The
    closed family of kinds is the one listed for the abstract value
    lattice; values are interned singletons, one per kind. *)
Inductive AbstractValueKind : Type :=
  | AVK_Any | AVK_Undefined | AVK_Integer | AVK_Float | AVK_Bool
  | AVK_Bytes | AVK_String | AVK_List | AVK_Tuple | AVK_Set | AVK_Dict
  | AVK_Function | AVK_Slice | AVK_Type | AVK_None | AVK_Complex
  | AVK_Code | AVK_Module | AVK_Bytearray | AVK_Memoryview | AVK_Iterable.

#[global] Instance AbstractValueKind_eq_dec : EqDecision AbstractValueKind.
Proof. solve_decision. Defined.

(** An [AbstractValue*] points to the singleton of its kind. *)
Definition AbstractValue : Type := AbstractValueKind.

Definition Undefined : AbstractValue := AVK_Undefined.
Definition Any : AbstractValue := AVK_Any.

Definition kind_of (v : AbstractValue) : AbstractValueKind := v.

(** A stack or local slot: a value pointer and a source pointer, either of
    which may be null ([hasValue()] and [hasSource()] are the tests for
    [Some]).  The representation [S] of the source pointer is left to the
    user of the record. *)
Record AbstractValueWithSources (S : Type) : Type := mkValueWithSources {
  Value : option AbstractValue;
  Sources : option S
}.
Arguments mkValueWithSources {S} _ _.
Arguments Value {S} _.
Arguments Sources {S} _.

(** ** Opcodes and machine arithmetic *)

(** Opcode numbers of the host interpreter used by name in the graph. *)
Definition EXTENDED_ARG : Z := 144.
Definition LOAD_FAST : Z := 124.
Definition STORE_FAST : Z := 125.

(** [sizeof(_Py_CODEUNIT)]. *)
Definition SIZEOF_CODEUNIT : Z := 2.

(** [size_t] is a 64-bit unsigned integer. *)
Definition SIZE_MODULUS : Z := 2 ^ 64.

(** Conversion of an [int] to [size_t] in a mixed comparison. *)
Definition to_size_t (n : Z) : Z := n mod SIZE_MODULUS.

(** [a - b] on [size_t], with its wrap-around. *)
Definition size_sub (a b : nat) : Z := (Z.of_nat a - Z.of_nat b) mod SIZE_MODULUS.

(** ** The instruction graph *)

Inductive EscapeTransition : Type := NoEscape | Unbox | Box | Unboxed.

#[global] Instance EscapeTransition_eq_dec : EqDecision EscapeTransition.
Proof. solve_decision. Defined.

Record Instruction : Type := mkInstruction {
  index : Z;
  opcode : Z;
  oparg : Z;
  escape : bool
}.

(** The value-initialised [Instruction] that [operator[]] of the
    instruction map inserts for a missing key. *)
Definition default_Instruction : Instruction :=
  {| index := 0; opcode := 0; oparg := 0; escape := false |}.

Definition set_escape (b : bool) (i : Instruction) : Instruction :=
  {| index := index i; opcode := opcode i; oparg := oparg i; escape := b |}.

(** [instructions[i]]: the entry, and the map after the access. *)
Definition instruction_at (instructions : gmap Z Instruction) (i : Z)
  : Instruction * gmap Z Instruction :=
  match instructions !! i with
  | Some ins => (ins, instructions)
  | None => (default_Instruction, <[i := default_Instruction]> instructions)
  end.

(** The escape flag held by a map of instructions at a key, [false] for a
    missing key. *)
Definition escape_in (m : gmap Z Instruction) (i : Z) : bool :=
  match m !! i with
  | Some ins => escape ins
  | None => false
  end.

(** [m'] comes from [m] by clearing escape flags and by creating default
    entries: no flag is raised, no entry is lost, no opcode or oparg is
    changed. *)
Definition lowers (m m' : gmap Z Instruction) : Prop :=
  (∀ i ins', m' !! i = Some ins' → escape ins' = true →
     ∃ ins, m !! i = Some ins ∧ escape ins = true ∧
            opcode ins' = opcode ins ∧ oparg ins' = oparg ins) ∧
  (∀ i ins, m !! i = Some ins →
     ∃ ins', m' !! i = Some ins' ∧
             opcode ins' = opcode ins ∧ oparg ins' = oparg ins).

Section Graph.
(** The class [AbstractSource], [unboxing.h] and the opcode table of the
    host are not among the sources: the graph is parametric in the type
    [Source] a [Sources] pointer refers to, with its two accessors, in the
    two whitelists and in the stack effect.  [isConsumedBy] returns the
    stack position, [None] standing for the sentinel [-1]. *)
Context {Source : Type}.
Variable producer : Source → Z.
Variable isConsumedBy : Source → Z → option nat.
Variable supportsUnboxing : Z → bool.
Variable supportsEscaping : AbstractValueKind → bool.
Variable PyCompile_OpcodeStackEffect : Z → Z → Z.

(** An edge.  Its [label], the description of the source that only
    [printGraph] reads, is left out. *)
Record Edge : Type := mkEdge {
  from : Z;
  to : Z;
  value : option AbstractValue;
  source : Source;
  escaped : EscapeTransition;
  kind : AbstractValueKind;
  position : nat
}.

Definition set_escaped (t : EscapeTransition) (e : Edge) : Edge :=
  {| from := from e; to := to e; value := value e; source := source e;
     escaped := t; kind := kind e; position := position e |}.

Record InstructionGraph : Type := mkGraph {
  instructions : gmap Z Instruction;
  edges : list Edge
}.

Definition with_instructions (m : gmap Z Instruction) (g : InstructionGraph)
  : InstructionGraph :=
  {| instructions := m; edges := edges g |}.

(** The escape flag read through [instructions[i]]: a missing entry is
    created with [escape = false]. *)
Definition escape_of (g : InstructionGraph) (i : Z) : bool :=
  match instructions g !! i with
  | Some ins => escape ins
  | None => false
  end.

(** *** getEdges and getEdgesFrom *)

(** The first loop of both accessors: the edges selected by [sel] are
    stored in an [EdgeMap] keyed by position, a later edge replacing an
    earlier one at the same position, and the largest position is
    tracked. *)
Definition filterEdges (sel : Edge → Z) (es : list Edge) (idx : Z)
  : gmap nat Edge * nat :=
  foldl (λ acc edge,
           if decide (sel edge = idx)
           then (<[position edge := edge]> (acc.1),
                 if (acc.2 <? position edge)%nat then position edge else acc.2)
           else acc)
        (∅, 0%nat) es.

(** The second loop: positions [0 .. max_position] in order, skipping the
    positions the map does not hold. *)
Definition collectEdges (sel : Edge → Z) (es : list Edge) (idx : Z) : list Edge :=
  let filtered := filterEdges sel es idx in
  omap (λ i, filtered.1 !! i) (seq 0 (S filtered.2)).

Definition getEdges (g : InstructionGraph) (idx : Z) : list Edge :=
  collectEdges to (edges g) idx.

Definition getEdgesFrom (g : InstructionGraph) (idx : Z) : list Edge :=
  collectEdges from (edges g) idx.

(** *** The constructor's decoding loop *)

Definition InterpreterStack : Type := list (AbstractValueWithSources Source).

(** The edges pushed for the stack recorded at [index]. *)
Definition stackEdges (index : Z) (stack : InterpreterStack) : list Edge :=
  omap (λ si,
          match Sources si with
          | Some s =>
              match isConsumedBy s index with
              | Some stackPosition =>
                  Some {| from := producer s; to := index; value := Value si;
                          source := s; escaped := NoEscape;
                          kind := match Value si with
                                  | Some v => kind_of v
                                  | None => AVK_Any
                                  end;
                          position := stackPosition |}
              | None => None
              end
          | None => None
          end) stack.

(** What one iteration does once [index], [opcode] and [oparg] are
    settled: push the edges of [stacks[index]], record the instruction. *)
Definition recordInstruction (stacks : gmap Z InterpreterStack)
    (index opcode oparg : Z) (g : InstructionGraph) : InstructionGraph :=
  let es := match stacks !! index with
            | Some stack => edges g ++ stackEdges index stack
            | None => edges g
            end in
  {| instructions :=
       <[index := {| index := index; opcode := opcode; oparg := oparg;
                     escape := false |}]> (instructions g);
     edges := es |}.

(** The bytecode is a list of code units [(opcode, oparg)], the unit at
    list position [n] being at byte offset [2 * n]: [GET_OPCODE] and
    [GET_OPARG] read the two halves of the unit at a byte offset.  Reading
    the unit after a trailing [EXTENDED_ARG] leaves the buffer: [None]. *)
Fixpoint decode (stacks : gmap Z InterpreterStack) (curByte : Z)
    (code : list (Z * Z)) (g : InstructionGraph) : option InstructionGraph :=
  match code with
  | [] => Some g
  | (opcode, oparg) :: rest =>
      if decide (opcode = EXTENDED_ARG) then
        match rest with
        | [] => None
        | (opcode', oparg') :: rest' =>
            let g1 := {| instructions :=
                           <[curByte := {| index := curByte; opcode := opcode;
                                           oparg := oparg; escape := false |}]>
                             (instructions g);
                         edges := edges g |} in
            let curByte' := curByte + SIZEOF_CODEUNIT in
            let oparg'' := Z.lor (Z.shiftl oparg 8) oparg' in
            decode stacks (curByte' + SIZEOF_CODEUNIT) rest'
                   (recordInstruction stacks curByte' opcode' oparg'' g1)
        end
      else
        decode stacks (curByte + SIZEOF_CODEUNIT) rest
               (recordInstruction stacks curByte opcode oparg g)
  end.

(** *** The passes *)

(** A range-for over the instruction map.  The container fixes no
    iteration order: the keys are visited in the order [order].  An entry
    that [operator[]] creates during the loop has [escape = false] and is
    skipped by every loop body, whether the iteration reaches it or not. *)
Definition for_each_instruction (order : list Z)
    (body : Z → Instruction → InstructionGraph → InstructionGraph)
    (g : InstructionGraph) : InstructionGraph :=
  foldl (λ g first,
           match instructions g !! first with
           | Some second => body first second g
           | None => g
           end) g order.

Definition allEscapable (es : list Edge) : bool :=
  forallb (λ e, supportsEscaping (kind e)) es.

Definition fixInstruction (first : Z) (second : Instruction)
    (g : InstructionGraph) : InstructionGraph :=
  if negb (supportsUnboxing (opcode second)) then g
  else if bool_decide (opcode second = LOAD_FAST ∨ opcode second = STORE_FAST) then g
  else if negb (allEscapable (getEdges g first)) then g
  else if negb (allEscapable (getEdgesFrom g first)) then g
  else with_instructions (alter (set_escape true) first (instructions g)) g.

Definition fixInstructions (order : list Z) : InstructionGraph → InstructionGraph :=
  for_each_instruction order fixInstruction.

(** [instruction.second.escape = false]. *)
Definition revert (first : Z) (g : InstructionGraph) : InstructionGraph :=
  with_instructions (alter (set_escape false) first (instructions g)) g.

Definition stackEffectWrong (second : Instruction) (edgesIn edgesOut : list Edge) : bool :=
  negb (to_size_t (PyCompile_OpcodeStackEffect (opcode second) (oparg second))
        =? size_sub (length edgesOut) (length edgesIn)).

Definition deoptimizeInstruction (first : Z) (second : Instruction)
    (g : InstructionGraph) : InstructionGraph :=
  if negb (escape second) then g
  else
    let edgesIn := getEdges g first in
    let edgesOut := getEdgesFrom g first in
    if stackEffectWrong second edgesIn edgesOut then revert first g
    else
      match edgesIn, edgesOut with
      | [], [out0] =>
          let next := instruction_at (instructions g) (to out0) in
          if negb (escape next.1)
          then revert first (with_instructions next.2 g)
          else with_instructions next.2 g
      | [in0], [] =>
          let prev := instruction_at (instructions g) (from in0) in
          if negb (escape prev.1)
          then revert first (with_instructions prev.2 g)
          else with_instructions prev.2 g
      | _, _ => g
      end.

Definition deoptimizeInstructions (order : list Z) : InstructionGraph → InstructionGraph :=
  for_each_instruction order deoptimizeInstruction.

(** The loop body of [fixLocals] is empty. *)
Definition fixLocals (g : InstructionGraph) : InstructionGraph := g.

Definition fixEdge (m : gmap Z Instruction) (edge : Edge) : Edge * gmap Z Instruction :=
  let producerIns := instruction_at m (from edge) in
  let consumerIns := instruction_at producerIns.2 (to edge) in
  if negb (escape producerIns.1) then
    if escape consumerIns.1
    then (set_escaped Unbox edge, consumerIns.2)
    else (set_escaped NoEscape edge, consumerIns.2)
  else
    if escape consumerIns.1
    then (set_escaped Unboxed edge, consumerIns.2)
    else (set_escaped Box edge, consumerIns.2).

Fixpoint fixEdges_loop (m : gmap Z Instruction) (es : list Edge)
  : list Edge * gmap Z Instruction :=
  match es with
  | [] => ([], m)
  | edge :: rest =>
      let painted := fixEdge m edge in
      let tail := fixEdges_loop painted.2 rest in
      (painted.1 :: tail.1, tail.2)
  end.

Definition fixEdges (g : InstructionGraph) : InstructionGraph :=
  let r := fixEdges_loop (instructions g) (edges g) in
  {| instructions := r.2; edges := r.1 |}.

(** The constructor.  [order1] and [order2] are the orders in which
    [fixInstructions] and [deoptimizeInstructions] traverse the map. *)
Definition InstructionGraph_new (order1 order2 : list Z)
    (code : list (Z * Z)) (stacks : gmap Z InterpreterStack)
  : option InstructionGraph :=
  match decode stacks 0 code {| instructions := ∅; edges := [] |} with
  | Some g =>
      Some (fixEdges (fixLocals (deoptimizeInstructions order2 (fixInstructions order1 g))))
  | None => None
  end.

(** *** Relations used to state what the passes keep *)

(** What [fixInstructions] requires of an instruction before it raises its
    escape flag, on the edges as the two accessors return them. *)
Definition escapable_at (g : InstructionGraph) (i : Z) (ins : Instruction) : Prop :=
  supportsUnboxing (opcode ins) = true ∧
  opcode ins ≠ LOAD_FAST ∧ opcode ins ≠ STORE_FAST ∧
  (∀ e, e ∈ getEdges g i → supportsEscaping (kind e) = true) ∧
  (∀ e, e ∈ getEdgesFrom g i → supportsEscaping (kind e) = true).

Definition escape_invariant (g : InstructionGraph) : Prop :=
  ∀ i ins, instructions g !! i = Some ins → escape ins = true →
           escapable_at g i ins.

Definition all_clear (m : gmap Z Instruction) : Prop :=
  ∀ i ins, m !! i = Some ins → escape ins = false.

(** A pass step that keeps the edges and only lowers escape flags. *)
Definition lowering (g g' : InstructionGraph) : Prop :=
  edges g' = edges g ∧ lowers (instructions g) (instructions g').

(** Every pass keeps the entries of the instruction map with their opcode
    and oparg. *)
Definition kept (g g' : InstructionGraph) : Prop :=
  ∀ i ins, instructions g !! i = Some ins →
    ∃ ins', instructions g' !! i = Some ins' ∧
            opcode ins' = opcode ins ∧ oparg ins' = oparg ins.

(** The transition painted on an edge, read off the flags of a map. *)
Definition paint (m : gmap Z Instruction) (e : Edge) : Edge :=
  set_escaped
    (match escape_in m (from e), escape_in m (to e) with
     | false, false => NoEscape
     | false, true => Unbox
     | true, true => Unboxed
     | true, false => Box
     end) e.

End Graph.


(** ** Abstract sources and the local state of the abstract interpreter *)

(** Modelled from the spec: [absvalue.h] is not among the sources.  The
    merge rule of the value lattice: [merge(a,b) = a] if [a == b];
    [Undefined] is the identity element; no join of two distinct defined
    kinds is listed as representable, so such a pair becomes [Any]. *)
Definition merge_value (a b : AbstractValue) : AbstractValue :=
  if decide (a = b) then a
  else if decide (a = Undefined) then b
  else if decide (b = Undefined) then a
  else Any.

(** Modelled from the spec: [absvalue.h] is not among the sources.  What a
    source records: its producing opcode indexes (a merge of N sources
    records all N), its escape bit and its consumer set (which opcode index
    pops it, at which stack depth). *)
Record AbstractSource : Type := mkSource {
  producers : gset Z;
  escapes_bit : bool;
  consumers : gset (Z * nat)
}.

(** Modelled from the spec: the source merge yields a multi-source whose
    consumer set is the union.  The producers are united likewise and the
    merged source is escaped when one of the two is; a null source merges
    to the other one. *)
Definition combine (one two : option AbstractSource) : option AbstractSource :=
  match one, two with
  | Some a, Some b =>
      Some {| producers := producers a ∪ producers b;
              escapes_bit := escapes_bit a || escapes_bit b;
              consumers := consumers a ∪ consumers b |}
  | Some a, None => Some a
  | None, _ => two
  end.

Section LocalInfo.
(** [Src] is what a [Sources] pointer stands for and [combineSources] the
    merge of two of them. *)
Context {Src : Type}.
Variable combineSources : option Src → option Src → option Src.

(** Modelled from the spec: [AbstractValueWithSources::merge_with] merges
    the values by the merge rule and the sources by the source merge.  A
    null value has nothing to merge and gives a null value. *)
Definition AbstractValueWithSources_merge_with
    (x other : AbstractValueWithSources Src) : AbstractValueWithSources Src :=
  {| Value := match Value x, Value other with
              | Some a, Some b => Some (merge_value a b)
              | _, _ => None
              end;
     Sources := combineSources (Sources x) (Sources other) |}.

Record AbstractLocalInfo : Type := mkLocalInfo {
  ValueInfo : AbstractValueWithSources Src;
  IsMaybeUndefined : bool
}.

(** The two assertions of the constructor. *)
Definition AbstractLocalInfo_asserts (valueInfo : AbstractValueWithSources Src)
    (isUndefined : bool) : bool :=
  bool_decide (Value valueInfo ≠ None) &&
  negb (bool_decide (Value valueInfo = Some Undefined) && negb isUndefined).

(** The constructor: [None] when an assertion fails. *)
Definition AbstractLocalInfo_new (valueInfo : AbstractValueWithSources Src)
    (isUndefined : bool) : option AbstractLocalInfo :=
  if AbstractLocalInfo_asserts valueInfo isUndefined
  then Some {| ValueInfo := valueInfo; IsMaybeUndefined := isUndefined |}
  else None.

(** [merge_with] builds its result with the constructor. *)
Definition merge_with (x other : AbstractLocalInfo) : option AbstractLocalInfo :=
  AbstractLocalInfo_new
    (AbstractValueWithSources_merge_with (ValueInfo x) (ValueInfo other))
    (IsMaybeUndefined x || IsMaybeUndefined other).

(** The state that must never happen: type [Undefined] while
    [IsMaybeUndefined] is [false]. *)
Definition leaked_Undefined (x : AbstractLocalInfo) : Prop :=
  Value (ValueInfo x) = Some Undefined ∧ IsMaybeUndefined x = false.

(** What the constructor asserts of a local. *)
Definition well_formed (x : AbstractLocalInfo) : Prop :=
  Value (ValueInfo x) ≠ None ∧ ¬ leaked_Undefined x.

End LocalInfo.

Arguments AbstractLocalInfo Src : clear implicits.

(** *** InterpreterState *)

(** A [Sources] pointer of a stack entry is an address in the heap of
    sources; entries that hold the same address share their source. *)
Definition SourceRef : Type := positive.

Record InterpreterState : Type := mkState {
  m_stack : list (AbstractValueWithSources SourceRef);
  m_locals : list (AbstractLocalInfo SourceRef)
}.

Definition set_escapes (s : AbstractSource) : AbstractSource :=
  {| producers := producers s; escapes_bit := true; consumers := consumers s |}.

(** Modelled from the spec: [AbstractValueWithSources::escapes] sets the
    escape bit of the source the entry points to, if it has one. *)
Definition escapes (res : AbstractValueWithSources SourceRef)
    (heap : gmap SourceRef AbstractSource) : gmap SourceRef AbstractSource :=
  match Sources res with
  | Some r => alter set_escapes r heap
  | None => heap
  end.

(** [pop] and [pop_no_escape] on a state and the heap of sources: the
    returned value, the state and the heap after the call, or [None] when
    the assertion [!m_stack.empty()] fails.  The top of the stack is the
    back of the vector. *)
Definition pop (st : InterpreterState) (heap : gmap SourceRef AbstractSource)
  : option (option AbstractValue * InterpreterState * gmap SourceRef AbstractSource) :=
  match last (m_stack st) with
  | None => None
  | Some res =>
      Some (Value res,
            {| m_stack := removelast (m_stack st); m_locals := m_locals st |},
            escapes res heap)
  end.

Definition pop_no_escape (st : InterpreterState) (heap : gmap SourceRef AbstractSource)
  : option (AbstractValueWithSources SourceRef * InterpreterState *
            gmap SourceRef AbstractSource) :=
  match last (m_stack st) with
  | None => None
  | Some res =>
      Some (res,
            {| m_stack := removelast (m_stack st); m_locals := m_locals st |},
            heap)
  end.

(** *** Sample locals and stacks *)

(** Two locals: an integer assigned on one path only, and a float. *)
Definition sample_int_local : AbstractLocalInfo AbstractSource :=
  {| ValueInfo := mkValueWithSources (Some AVK_Integer)
                    (Some (mkSource {[0]} false {[(4, 0%nat)]}));
     IsMaybeUndefined := true |}.

Definition sample_float_local : AbstractLocalInfo AbstractSource :=
  {| ValueInfo := mkValueWithSources (Some AVK_Float) None;
     IsMaybeUndefined := false |}.

(** A heap of two sources, and a stack entry for an address; the stack of
    the example holds the address 1 twice. *)
Definition sample_heap : gmap SourceRef AbstractSource :=
  <[1%positive := mkSource {[0]} false ∅]> (<[2%positive := mkSource {[2]} false ∅]> ∅).

Definition sample_entry (r : SourceRef) : AbstractValueWithSources SourceRef :=
  mkValueWithSources (Some AVK_Integer) (Some r).

(** ** Sample tables for concrete graphs *)

(** The whitelists of [unboxing.h] and the opcode table are parameters of
    the graph; the concrete graphs below are built with these samples. *)
Module Sample.

Definition LOAD_CONST : Z := 100.
Definition BINARY_ADD : Z := 23.
Definition UNARY_NEGATIVE : Z := 11.
Definition RETURN_VALUE : Z := 83.

Definition supportsUnboxing (opcode : Z) : bool :=
  bool_decide (opcode ∈ [LOAD_CONST; BINARY_ADD; UNARY_NEGATIVE; LOAD_FAST; STORE_FAST]).

Definition supportsEscaping (kind : AbstractValueKind) : bool :=
  bool_decide (kind ∈ [AVK_Integer; AVK_Float; AVK_Bool]).

(** [PY_INVALID_STACK_EFFECT] is [INT_MAX]. *)
Definition PyCompile_OpcodeStackEffect (opcode oparg : Z) : Z :=
  if decide (opcode = LOAD_CONST) then 1
  else if decide (opcode = BINARY_ADD) then -1
  else if decide (opcode = RETURN_VALUE) then -1
  else if decide (opcode = UNARY_NEGATIVE) then 0
  else if decide (opcode = EXTENDED_ARG) then 0
  else 2147483647.

(** A source seen through its two accessors: its producer and the list of
    its consumers with their stack positions. *)
Record Source : Type := mkSampleSource {
  producer : Z;
  consumedBy : list (Z * nat)
}.

Definition isConsumedBy (s : Source) (idx : Z) : option nat :=
  match list_find (λ c, c.1 = idx) (consumedBy s) with
  | Some (_, c) => Some c.2
  | None => None
  end.

Definition new (order : list Z) (code : list (Z * Z))
    (stacks : gmap Z (list (AbstractValueWithSources Source)))
  : option (@InstructionGraph Source) :=
  InstructionGraph_new producer isConsumedBy supportsUnboxing supportsEscaping
    PyCompile_OpcodeStackEffect order order code stacks.

Definition integer_from (s : Source) : AbstractValueWithSources Source :=
  mkValueWithSources (Some AVK_Integer) (Some s).

(** [LOAD_CONST 0; LOAD_CONST 1; BINARY_ADD; RETURN_VALUE] with the stacks
    before each opcode. *)
Definition add_code : list (Z * Z) :=
  [(LOAD_CONST, 0); (LOAD_CONST, 1); (BINARY_ADD, 0); (RETURN_VALUE, 0)].

Definition add_stacks : gmap Z (list (AbstractValueWithSources Source)) :=
  let s0 := mkSampleSource 0 [(4, 0%nat)] in
  let s1 := mkSampleSource 2 [(4, 1%nat)] in
  let s2 := mkSampleSource 4 [(6, 0%nat)] in
  <[2 := [integer_from s0]]>
    (<[4 := [integer_from s0; integer_from s1]]>
       (<[6 := [integer_from s2]]> ∅)).

Definition add_order : list Z := [0; 2; 4; 6].

(** The same code where, in the stack before [BINARY_ADD], the source of
    the first entry does not report [BINARY_ADD] as a consumer and the
    source of the second entry reports it at position 1. *)
Definition gap_code : list (Z * Z) := add_code.

Definition gap_stacks : gmap Z (list (AbstractValueWithSources Source)) :=
  let s0 := mkSampleSource 0 [] in
  let s1 := mkSampleSource 2 [(4, 1%nat)] in
  <[4 := [integer_from s0; integer_from s1]]> ∅.

(** Two hand-built graphs: a constant whose consumer is not escaped, and
    an escaped constant that nothing consumes. *)
Definition boxed_graph : @InstructionGraph Source :=
  {| instructions :=
       <[0 := mkInstruction 0 LOAD_CONST 0 true]>
         (<[2 := mkInstruction 2 RETURN_VALUE 0 false]> ∅);
     edges := [ {| from := 0; to := 2; value := Some AVK_Integer;
                   source := mkSampleSource 0 [(2, 0%nat)];
                   escaped := NoEscape; kind := AVK_Integer;
                   position := 0%nat |} ] |}.

Definition unused_graph : @InstructionGraph Source :=
  {| instructions := <[0 := mkInstruction 0 LOAD_CONST 0 true]> ∅;
     edges := [] |}.

End Sample.

(** ** Definitions for the further properties *)

(** [m'] holds every entry of [m], up to its escape flag. *)
Definition reflagged (m m' : gmap Z Instruction) : Prop :=
  ∀ i ins, m !! i = Some ins → ∃ b, m' !! i = Some (set_escape b ins).

Section GraphMore.
Context {Source : Type}.
Variable producer : Source → Z.
Variable isConsumedBy : Source → Z → option nat.
Variable supportsUnboxing : Z → bool.
Variable supportsEscaping : AbstractValueKind → bool.

(** The four tests an instruction passes in [fixInstructions] before its
    flag is raised. *)
Definition escapeConditions (g : @InstructionGraph Source) (first : Z)
    (second : Instruction) : bool :=
  supportsUnboxing (opcode second) &&
  negb (bool_decide (opcode second = LOAD_FAST ∨ opcode second = STORE_FAST)) &&
  allEscapable supportsEscaping (getEdges g first) &&
  allEscapable supportsEscaping (getEdgesFrom g first).

(** An edge as the constructor builds it from an entry of the stack
    recorded at its target. *)
Definition edge_from_stack (stacks : gmap Z (list (AbstractValueWithSources Source)))
    (e : @Edge Source) : Prop :=
  ∃ stack si s,
    stacks !! to e = Some stack ∧ si ∈ stack ∧ Sources si = Some s ∧
    source e = s ∧ from e = producer s ∧
    isConsumedBy s (to e) = Some (position e) ∧
    value e = Value si ∧
    kind e = match Value si with Some v => kind_of v | None => AVK_Any end.

(** The graph the decoding loop starts from. *)
Definition empty_graph : @InstructionGraph Source :=
  {| instructions := ∅; edges := [] |}.

(** What the decoding loop keeps true of the edges when it reaches the
    byte offset [curByte]. *)
Definition edges_invariant
    (stacks : gmap Z (list (AbstractValueWithSources Source))) (curByte : Z)
    (g : @InstructionGraph Source) : Prop :=
  Forall (edge_from_stack stacks) (edges g) ∧
  Forall (λ e, is_Some (instructions g !! to e)) (edges g) ∧
  StronglySorted (λ a b, to a ≤ to b) (edges g) ∧
  Forall (λ e, to e < curByte) (edges g).

End GraphMore.

(** *** The other stack operations of InterpreterState *)

(** [push(AbstractValueWithSources&)]. *)
Definition push (value : AbstractValueWithSources SourceRef) (st : InterpreterState)
  : InterpreterState :=
  {| m_stack := m_stack st ++ [value]; m_locals := m_locals st |}.

Definition stack_size (st : InterpreterState) : nat := length (m_stack st).

(** [operator[]]: the entry at [index] from the bottom of the stack; the
    vector is not indexed outside its bounds. *)
Definition stack_at (st : InterpreterState) (index : nat)
  : option (AbstractValueWithSources SourceRef) :=
  m_stack st !! index.

(** *** A constant whose only consumer has a wrong stack effect *)

Module OrderExample.

(** [LOAD_CONST 0; BINARY_ADD; RETURN_VALUE]: the stack before
    [BINARY_ADD] holds one entry only, so that its one inbound and one
    outbound edge do not match its stack effect. *)
Definition code : list (Z * Z) :=
  [(Sample.LOAD_CONST, 0); (Sample.BINARY_ADD, 0); (Sample.RETURN_VALUE, 0)].

Definition stacks : gmap Z (list (AbstractValueWithSources Sample.Source)) :=
  let s0 := Sample.mkSampleSource 0 [(2, 0%nat)] in
  let s1 := Sample.mkSampleSource 2 [(4, 0%nat)] in
  <[2 := [Sample.integer_from s0]]> (<[4 := [Sample.integer_from s1]]> ∅).

End OrderExample.

(** *** Two more hand-built graphs *)

Module MoreSamples.

(** [RETURN_VALUE] at 0, escaped, whose only input comes from the frame:
    the producer [-1] is no instruction of the graph. *)
Definition frame_edge : @Edge Sample.Source :=
  {| from := -1; to := 0; value := Some AVK_Integer;
     source := Sample.mkSampleSource (-1) [(0, 0%nat)];
     escaped := NoEscape; kind := AVK_Integer; position := 0%nat |}.

Definition frame_graph : @InstructionGraph Sample.Source :=
  {| instructions := <[0 := mkInstruction 0 Sample.RETURN_VALUE 0 true]> ∅;
     edges := [frame_edge] |}.

(** [BINARY_ADD] at 4, escaped, with its two inputs and its output. *)
Definition sum_edge (f t : Z) (p : nat) : @Edge Sample.Source :=
  {| from := f; to := t; value := Some AVK_Integer;
     source := Sample.mkSampleSource f [(t, p)];
     escaped := NoEscape; kind := AVK_Integer; position := p |}.

Definition sum_graph : @InstructionGraph Sample.Source :=
  {| instructions := <[4 := mkInstruction 4 Sample.BINARY_ADD 0 true]> ∅;
     edges := [sum_edge 0 4 0; sum_edge 2 4 1; sum_edge 4 6 0] |}.

End MoreSamples.

(** *** Edges that share a stack position *)

Module ShadowExample.

Definition string_from (s : Sample.Source) : AbstractValueWithSources Sample.Source :=
  mkValueWithSources (Some AVK_String) (Some s).

(** [LOAD_CONST 0; UNARY_NEGATIVE; RETURN_VALUE]: the stack before
    [UNARY_NEGATIVE] holds a string and an integer, and the source of
    both reports [UNARY_NEGATIVE] as its consumer at position 0. *)
Definition code : list (Z * Z) :=
  [(Sample.LOAD_CONST, 0); (Sample.UNARY_NEGATIVE, 0); (Sample.RETURN_VALUE, 0)].

Definition stacks : gmap Z (list (AbstractValueWithSources Sample.Source)) :=
  let s0 := Sample.mkSampleSource 0 [(2, 0%nat)] in
  let s1 := Sample.mkSampleSource 2 [(4, 0%nat)] in
  <[2 := [string_from s0; Sample.integer_from s0]]>
    (<[4 := [Sample.integer_from s1]]> ∅).

Definition order : list Z := [0; 2; 4].

(** The edge of the string into [UNARY_NEGATIVE], as [fixEdges] leaves
    it. *)
Definition string_edge : @Edge Sample.Source :=
  {| from := 0; to := 2; value := Some AVK_String;
     source := Sample.mkSampleSource 0 [(2, 0%nat)];
     escaped := Unboxed; kind := AVK_String; position := 0%nat |}.

(** [LOAD_CONST 0; UNARY_NEGATIVE; UNARY_NEGATIVE; RETURN_VALUE]: the
    source of the constant reports both negations as consumers at
    position 0, so that two edges leave the constant at that position. *)
Definition fan_code : list (Z * Z) :=
  [(Sample.LOAD_CONST, 0); (Sample.UNARY_NEGATIVE, 0);
   (Sample.UNARY_NEGATIVE, 0); (Sample.RETURN_VALUE, 0)].

Definition fan_stacks : gmap Z (list (AbstractValueWithSources Sample.Source)) :=
  let s0 := Sample.mkSampleSource 0 [(2, 0%nat); (4, 0%nat)] in
  let s2 := Sample.mkSampleSource 4 [(6, 0%nat)] in
  <[2 := [Sample.integer_from s0]]>
    (<[4 := [Sample.integer_from s0]]>
       (<[6 := [Sample.integer_from s2]]> ∅)).

(** The graph of [fan_code] as it enters [deoptimizeInstructions]: decoded,
    then through [fixInstructions]. *)
Definition fan_entering : option (@InstructionGraph Sample.Source) :=
  match decode Sample.producer Sample.isConsumedBy fan_stacks 0 fan_code
          {| instructions := ∅; edges := [] |} with
  | Some g =>
      Some (fixInstructions Sample.supportsUnboxing Sample.supportsEscaping
              [0; 2; 4; 6] g)
  | None => None
  end.

End ShadowExample.

(** * Properties of the accessors *)

Section GraphFacts.
Context {Source : Type}.
Implicit Types (e : @Edge Source) (es : list (@Edge Source)).
Implicit Types (sel : @Edge Source → Z).

Lemma filterEdges_snoc sel es e idx :
  filterEdges sel (es ++ [e]) idx =
  let acc := filterEdges sel es idx in
  if decide (sel e = idx)
  then (<[position e := e]> (acc.1),
        if (acc.2 <? position e)%nat then position e else acc.2)
  else acc.
Proof. unfold filterEdges. by rewrite foldl_app. Qed.

(** The map holds, at each position, the last selected edge with that
    position. *)
Lemma filterEdges_lookup sel es idx (p : nat) :
  (filterEdges sel es idx).1 !! p =
  last (filter (λ e, sel e = idx ∧ position e = p) es).
Proof.
  induction es as [|e es IH] using rev_ind; [done|].
  rewrite filterEdges_snoc, filter_app. cbn zeta.
  destruct (decide (sel e = idx)) as [Hs|Hs]; cbn [fst].
  - destruct (decide (position e = p)) as [<-|Hp].
    + rewrite lookup_insert_eq.
      rewrite (filter_cons_True _ e []) by done.
      rewrite filter_nil. by rewrite last_snoc.
    + rewrite lookup_insert_ne by done.
      rewrite (filter_cons_False _ e []) by tauto.
      rewrite filter_nil, app_nil_r. exact IH.
  - rewrite (filter_cons_False _ e []) by tauto.
    rewrite filter_nil, app_nil_r. exact IH.
Qed.

Lemma filterEdges_bound sel es idx (p : nat) e :
  (filterEdges sel es idx).1 !! p = Some e → (p ≤ (filterEdges sel es idx).2)%nat.
Proof.
  revert p e. induction es as [|x es IH] using rev_ind; intros p e.
  - unfold filterEdges. cbn [foldl fst]. by rewrite lookup_empty.
  - rewrite filterEdges_snoc. cbn zeta.
    destruct (decide (sel x = idx)) as [Hs|Hs]; cbn [fst snd]; [|by apply IH].
    destruct (decide (position x = p)) as [<-|Hp].
    + intros _. destruct (Nat.ltb_spec (filterEdges sel es idx).2 (position x)); lia.
    + rewrite lookup_insert_ne by done. intros H%IH.
      destruct (Nat.ltb_spec (filterEdges sel es idx).2 (position x)); lia.
Qed.

Lemma filterEdges_Some sel es idx (p : nat) e :
  (filterEdges sel es idx).1 !! p = Some e →
  e ∈ es ∧ sel e = idx ∧ position e = p.
Proof.
  rewrite filterEdges_lookup. intros H%last_Some_elem_of.
  apply list_elem_of_filter in H. tauto.
Qed.

Lemma filterEdges_is_Some sel es idx e :
  e ∈ es → sel e = idx → is_Some ((filterEdges sel es idx).1 !! position e).
Proof.
  intros Hin Hs. rewrite filterEdges_lookup.
  assert (He : e ∈ filter (λ x, sel x = idx ∧ position x = position e) es)
    by (apply list_elem_of_filter; tauto).
  destruct (filter _ es) as [|y l] eqn:E using rev_ind.
  - by apply elem_of_nil in He.
  - rewrite last_snoc. eauto.
Qed.

(** Membership in the result of an accessor. *)
Lemma elem_of_collectEdges sel es idx e :
  e ∈ collectEdges sel es idx ↔
  (filterEdges sel es idx).1 !! position e = Some e.
Proof.
  unfold collectEdges. rewrite list_elem_of_omap. split.
  - intros (p & _ & Hp). by destruct (filterEdges_Some _ _ _ _ _ Hp) as (_ & _ & <-).
  - intros H. exists (position e). split; [|done].
    apply elem_of_seq. pose proof (filterEdges_bound _ _ _ _ _ H). lia.
Qed.

Lemma collectEdges_elem_of sel es idx e :
  e ∈ collectEdges sel es idx → e ∈ es ∧ sel e = idx.
Proof.
  rewrite elem_of_collectEdges. intros H%filterEdges_Some. tauto.
Qed.

Lemma filter_none {A} (P : A → Prop) `{!∀ x, Decision (P x)} (l : list A) :
  (∀ x, x ∈ l → ¬ P x) → filter P l = [].
Proof.
  induction l as [|x l IH]; intros Hall; [done|].
  rewrite filter_cons_False by (apply Hall; left).
  apply IH. intros y Hy. apply Hall. by right.
Qed.

(** An edge that no later selected edge shadows at its position is
    returned. *)
Lemma collectEdges_last sel es1 e es2 idx :
  sel e = idx →
  (∀ e', e' ∈ es2 → sel e' = idx → position e' ≠ position e) →
  e ∈ collectEdges sel (es1 ++ e :: es2) idx.
Proof.
  intros Hs Hlater. rewrite elem_of_collectEdges, filterEdges_lookup.
  rewrite filter_app, filter_cons_True by done.
  replace (filter _ es2) with (@nil (@Edge Source)).
  - by rewrite last_snoc.
  - symmetry. apply filter_none.
    intros x Hx [Hx1 Hx2]. by eapply Hlater.
Qed.

Lemma omap_cons_match {A B} (f : A → option B) (x : A) (l : list A) :
  omap f (x :: l) =
  match f x with Some y => y :: omap f l | None => omap f l end.
Proof. done. Qed.

Lemma collectEdges_positions_from sel es idx (n len : nat) :
  let m := (filterEdges sel es idx).1 in
  StronglySorted lt (position <$> omap (λ i, m !! i) (seq n len)) ∧
  Forall (λ p, n ≤ p)%nat (position <$> omap (λ i, m !! i) (seq n len)).
Proof.
  cbn zeta. revert n. induction len as [|len IH]; intros n.
  - split; constructor.
  - destruct (IH (S n)) as [IH1 IH2].
    cbn [seq]. rewrite omap_cons_match.
    destruct ((filterEdges sel es idx).1 !! n) as [e|] eqn:E.
    + apply filterEdges_Some in E as (_ & _ & Hp).
      rewrite fmap_cons, Hp.
      split.
      * constructor; [done|]. eapply Forall_impl; [exact IH2|]. cbn. lia.
      * constructor; [done|]. eapply Forall_impl; [exact IH2|]. cbn. lia.
    + split; [done|]. eapply Forall_impl; [exact IH2|]. cbn. lia.
Qed.

(** The result is in strictly ascending position. *)
Lemma collectEdges_sorted sel es idx :
  StronglySorted lt (position <$> collectEdges sel es idx).
Proof. apply collectEdges_positions_from. Qed.

(** The positions returned are those of the selected edges. *)
Lemma collectEdges_positions sel es idx (p : nat) :
  p ∈ position <$> collectEdges sel es idx ↔
  ∃ e, e ∈ es ∧ sel e = idx ∧ position e = p.
Proof.
  rewrite list_elem_of_fmap. split.
  - intros (e & -> & He). exists e.
    apply collectEdges_elem_of in He. tauto.
  - intros (e & Hin & Hs & <-).
    destruct (filterEdges_is_Some sel es idx e Hin Hs) as [e' He'].
    exists e'. destruct (filterEdges_Some _ _ _ _ _ He') as (_ & _ & Hp).
    split; [done|]. apply elem_of_collectEdges. by rewrite Hp.
Qed.

Lemma StronglySorted_lt_NoDup (l : list nat) : StronglySorted lt l → NoDup l.
Proof.
  induction 1 as [|x l _ IH Hall]; constructor; [|done].
  intros Hx. rewrite Forall_forall in Hall. specialize (Hall _ Hx). lia.
Qed.

Lemma collectEdges_length sel es idx :
  (length (collectEdges sel es idx) ≤ length es)%nat.
Proof.
  rewrite <- (length_fmap position (collectEdges sel es idx)).
  rewrite <- (length_fmap position es).
  apply submseteq_length, NoDup_submseteq.
  - apply StronglySorted_lt_NoDup, collectEdges_sorted.
  - intros p (e & Hin & _ & <-)%collectEdges_positions.
    by apply list_elem_of_fmap_2.
Qed.

Lemma filterEdges_fmap sel (f : @Edge Source → @Edge Source) es idx :
  (∀ e, sel (f e) = sel e) → (∀ e, position (f e) = position e) →
  filterEdges sel (f <$> es) idx =
  (f <$> (filterEdges sel es idx).1, (filterEdges sel es idx).2).
Proof.
  intros Hs Hp. induction es as [|x es IH] using rev_ind.
  - unfold filterEdges. cbn. by rewrite fmap_empty.
  - rewrite fmap_app. change (f <$> [x]) with [f x].
    rewrite !filterEdges_snoc. cbn zeta. rewrite IH. cbn [fst snd].
    rewrite Hs, Hp. destruct (decide (sel x = idx)); [|done].
    cbn [fst snd]. by rewrite fmap_insert.
Qed.

(** Rewriting a field that the accessors do not read commutes with them. *)
Lemma collectEdges_fmap sel (f : @Edge Source → @Edge Source) es idx :
  (∀ e, sel (f e) = sel e) → (∀ e, position (f e) = position e) →
  collectEdges sel (f <$> es) idx = f <$> collectEdges sel es idx.
Proof.
  intros Hs Hp. unfold collectEdges. rewrite filterEdges_fmap by done.
  cbn [fst snd]. generalize (seq 0 (S (filterEdges sel es idx).2)).
  intros l. induction l as [|p l IH]; [done|].
  rewrite !omap_cons_match, lookup_fmap.
  destruct ((filterEdges sel es idx).1 !! p); cbn; by rewrite IH.
Qed.

End GraphFacts.

(** * Properties of the passes *)

Lemma lowers_refl m : lowers m m.
Proof. split; intros i ins H; eauto 6. Qed.

Lemma lowers_trans m1 m2 m3 : lowers m1 m2 → lowers m2 m3 → lowers m1 m3.
Proof.
  intros [A1 B1] [A2 B2]. split.
  - intros i ins3 H3 E3.
    destruct (A2 _ _ H3 E3) as (ins2 & H2 & E2 & O2 & P2).
    destruct (A1 _ _ H2 E2) as (ins1 & H1 & E1 & O1 & P1).
    exists ins1. repeat split; congruence.
  - intros i ins1 H1.
    destruct (B1 _ _ H1) as (ins2 & H2 & O2 & P2).
    destruct (B2 _ _ H2) as (ins3 & H3 & O3 & P3).
    exists ins3. repeat split; congruence.
Qed.

Lemma lowers_escape_in m m' i :
  lowers m m' → escape_in m' i = true → escape_in m i = true.
Proof.
  intros [A _]. unfold escape_in.
  destruct (m' !! i) as [ins'|] eqn:E'; [|done].
  intros He. destruct (A _ _ E' He) as (ins & -> & ? & _). done.
Qed.

Lemma instruction_at_fst m i : escape (instruction_at m i).1 = escape_in m i.
Proof. unfold instruction_at, escape_in. by destruct (m !! i). Qed.

Lemma instruction_at_escape_in m i k :
  escape_in (instruction_at m i).2 k = escape_in m k.
Proof.
  unfold instruction_at, escape_in.
  destruct (m !! i) eqn:E; [done|]. cbn [snd].
  destruct (decide (i = k)) as [->|Hne].
  - by rewrite lookup_insert_eq, E.
  - by rewrite lookup_insert_ne.
Qed.

Lemma instruction_at_lowers m i : lowers m (instruction_at m i).2.
Proof.
  unfold instruction_at. destruct (m !! i) eqn:E; [apply lowers_refl|].
  cbn [snd]. split.
  - intros k ins'. destruct (decide (i = k)) as [->|Hne].
    + rewrite lookup_insert_eq. intros [= <-]. done.
    + rewrite lookup_insert_ne by done. eauto 6.
  - intros k ins Hk. destruct (decide (i = k)) as [->|Hne]; [congruence|].
    rewrite lookup_insert_ne by done. eauto.
Qed.

Lemma alter_clear_lowers m k : lowers m (alter (set_escape false) k m).
Proof.
  split.
  - intros i ins'. destruct (decide (k = i)) as [->|Hne].
    + rewrite lookup_alter_eq. destruct (m !! i); [|done].
      intros [= <-]. done.
    + rewrite lookup_alter_ne by done. eauto 6.
  - intros i ins Hi. destruct (decide (k = i)) as [->|Hne].
    + rewrite lookup_alter_eq, Hi. eauto.
    + rewrite lookup_alter_ne by done. eauto.
Qed.

Lemma alter_clear_escape_in m k : escape_in (alter (set_escape false) k m) k = false.
Proof. unfold escape_in. rewrite lookup_alter_eq. by destruct (m !! k). Qed.

(** Comparing an [int] with a difference of sizes as [size_t] values is
    comparing the integers, as long as the sizes stay below [2 ^ 63]. *)
Lemma size_t_compare (effect : Z) (a b : nat) :
  - 2 ^ 31 ≤ effect < 2 ^ 31 →
  Z.of_nat a < 2 ^ 63 → Z.of_nat b < 2 ^ 63 →
  to_size_t effect = size_sub a b ↔ effect = Z.of_nat a - Z.of_nat b.
Proof.
  intros He Ha Hb. unfold to_size_t, size_sub, SIZE_MODULUS. split; [|by intros ->].
  intros Heq.
  assert (Hm : (effect - (Z.of_nat a - Z.of_nat b)) mod 2 ^ 64 = 0).
  { rewrite Zminus_mod, Heq, Z.sub_diag. done. }
  apply Z.mod_divide in Hm; [|lia]. destruct Hm as [k Hk]. lia.
Qed.

Section PassFacts.
Context {Source : Type}.
Variable supportsUnboxing : Z → bool.
Variable supportsEscaping : AbstractValueKind → bool.
Variable PyCompile_OpcodeStackEffect : Z → Z → Z.

Abbreviation Graph := (@InstructionGraph Source).
Implicit Types (g : Graph) (e : @Edge Source) (es : list (@Edge Source)).

Lemma lowering_refl g : lowering g g.
Proof. split; [done|apply lowers_refl]. Qed.

Lemma lowering_trans g1 g2 g3 : lowering g1 g2 → lowering g2 g3 → lowering g1 g3.
Proof.
  intros [E1 L1] [E2 L2]. split; [congruence|by eapply lowers_trans].
Qed.

Lemma for_each_instruction_cons first order body g :
  for_each_instruction (first :: order) body g =
  for_each_instruction order body
    (match instructions g !! first with
     | Some second => body first second g
     | None => g
     end).
Proof. done. Qed.

Lemma for_each_instruction_app order1 order2 body g :
  for_each_instruction (order1 ++ order2) body g =
  for_each_instruction order2 body (for_each_instruction order1 body g).
Proof. unfold for_each_instruction. by rewrite foldl_app. Qed.

(** A relation that every step of the loop body establishes, and that is
    reflexive and transitive, relates the ends of the loop. *)
Lemma for_each_instruction_rel (R : Graph → Graph → Prop) body :
  (∀ g, R g g) →
  (∀ g1 g2 g3, R g1 g2 → R g2 g3 → R g1 g3) →
  (∀ first second g,
     instructions g !! first = Some second → R g (body first second g)) →
  ∀ order g, R g (for_each_instruction order body g).
Proof.
  intros Hrefl Htrans Hstep order.
  induction order as [|first order IH]; intros g; [apply Hrefl|].
  rewrite for_each_instruction_cons.
  destruct (instructions g !! first) as [second|] eqn:E; [|apply IH].
  eapply Htrans; [by apply Hstep|apply IH].
Qed.

Lemma revert_lowering first g : lowering g (revert first g).
Proof. split; [done|apply alter_clear_lowers]. Qed.

Lemma with_instruction_at_lowering g i :
  lowering g (with_instructions (instruction_at (instructions g) i).2 g).
Proof. split; [done|apply instruction_at_lowers]. Qed.

Lemma deoptimizeInstruction_lowering first second g :
  lowering g (deoptimizeInstruction PyCompile_OpcodeStackEffect first second g).
Proof.
  unfold deoptimizeInstruction.
  destruct (negb (escape second)); [apply lowering_refl|].
  destruct (stackEffectWrong _ _ _ _); [apply revert_lowering|].
  destruct (getEdges g first) as [|in0 [|in1 ins]];
    destruct (getEdgesFrom g first) as [|out0 [|out1 outs]];
    try apply lowering_refl.
  - destruct (negb _).
    + eapply lowering_trans; [apply with_instruction_at_lowering|apply revert_lowering].
    + apply with_instruction_at_lowering.
  - destruct (negb _).
    + eapply lowering_trans; [apply with_instruction_at_lowering|apply revert_lowering].
    + apply with_instruction_at_lowering.
Qed.

Lemma deoptimizeInstructions_lowering order g :
  lowering g (deoptimizeInstructions PyCompile_OpcodeStackEffect order g).
Proof.
  unfold deoptimizeInstructions. apply for_each_instruction_rel;
    eauto using lowering_refl, lowering_trans, deoptimizeInstruction_lowering.
Qed.

Lemma lowering_escape_of g g' i :
  lowering g g' → escape_of g' i = true → escape_of g i = true.
Proof. intros [_ L]. apply (lowers_escape_in _ _ i L). Qed.

(** Visiting an escaped instruction whose stack effect is wrong clears
    its flag. *)
Lemma deoptimizeInstruction_wrong first second g :
  instructions g !! first = Some second →
  stackEffectWrong PyCompile_OpcodeStackEffect second
    (getEdges g first) (getEdgesFrom g first) = true →
  escape_of (deoptimizeInstruction PyCompile_OpcodeStackEffect first second g) first
  = false.
Proof.
  intros Hfirst Hwrong. unfold deoptimizeInstruction.
  destruct (escape second) eqn:E; cbn [negb].
  - rewrite Hwrong. apply alter_clear_escape_in.
  - unfold escape_of. by rewrite Hfirst.
Qed.

(** *** fixEdges *)

Lemma fixEdge_paint m e :
  (fixEdge m e).1 = paint m e ∧
  lowers m (fixEdge m e).2 ∧
  ∀ k, escape_in (fixEdge m e).2 k = escape_in m k.
Proof.
  unfold fixEdge, paint.
  pose proof (instruction_at_fst m (from e)) as H1.
  pose proof (instruction_at_fst (instruction_at m (from e)).2 (to e)) as H2.
  rewrite instruction_at_escape_in in H2.
  assert (L : lowers m (instruction_at (instruction_at m (from e)).2 (to e)).2).
  { eapply lowers_trans; apply instruction_at_lowers. }
  assert (K : ∀ k, escape_in (instruction_at (instruction_at m (from e)).2 (to e)).2 k
                   = escape_in m k).
  { intros k. by rewrite !instruction_at_escape_in. }
  rewrite <- H1, <- H2.
  destruct (escape (instruction_at m (from e)).1),
           (escape (instruction_at (instruction_at m (from e)).2 (to e)).1);
    cbn [negb fst snd]; done.
Qed.

Lemma paint_ext m m' e :
  (∀ k, escape_in m' k = escape_in m k) → paint m' e = paint m e.
Proof. intros H. unfold paint. by rewrite !H. Qed.

Lemma fixEdges_loop_paint m es :
  (fixEdges_loop m es).1 = paint m <$> es ∧
  lowers m (fixEdges_loop m es).2 ∧
  ∀ k, escape_in (fixEdges_loop m es).2 k = escape_in m k.
Proof.
  revert m. induction es as [|e es IH]; intros m; cbn [fixEdges_loop fst snd].
  - split; [done|]. split; [apply lowers_refl|done].
  - destruct (fixEdge_paint m e) as (P1 & L1 & K1).
    destruct (IH (fixEdge m e).2) as (P2 & L2 & K2).
    split; [|split].
    + rewrite fmap_cons, P1, P2. f_equal.
      apply list_fmap_ext. intros _ x _. by apply paint_ext.
    + by eapply lowers_trans.
    + intros k. by rewrite K2, K1.
Qed.

Lemma fixEdges_edges g :
  edges (fixEdges g) = paint (instructions g) <$> edges g.
Proof. apply fixEdges_loop_paint. Qed.

Lemma fixEdges_escape_of g k : escape_of (fixEdges g) k = escape_of g k.
Proof. apply fixEdges_loop_paint. Qed.

Lemma fixEdges_lowers g : lowers (instructions g) (instructions (fixEdges g)).
Proof. apply fixEdges_loop_paint. Qed.

(** *** The claims on fixEdges and deoptimizeInstructions *)

(** C3.  After [fixEdges], the boxing transition of every edge is given by
    the escape flags of its producer and of its consumer: (false, false)
    is [NoEscape], (false, true) is [Unbox], (true, true) is [Unboxed] and
    (true, false) is [Box]. *)
Theorem fixEdges_transition_table g e :
  e ∈ edges (fixEdges g) →
  escaped e =
    match escape_of (fixEdges g) (from e), escape_of (fixEdges g) (to e) with
    | false, false => NoEscape
    | false, true => Unbox
    | true, true => Unboxed
    | true, false => Box
    end.
Proof.
  rewrite fixEdges_edges. intros (e0 & -> & _)%list_elem_of_fmap.
  rewrite !fixEdges_escape_of. reflexivity.
Qed.

Lemma lowering_keeps_false g g' i :
  lowering g g' → escape_of g i = false → escape_of g' i = false.
Proof.
  intros L Hbefore. destruct (escape_of g' i) eqn:Hafter; [|done].
  apply (lowering_escape_of g) in Hafter; [congruence|done].
Qed.

(** C4.  [deoptimizeInstructions] raises no escape flag: an instruction
    whose flag is [false] before the pass has it [false] after, in
    whichever order the pass visits the instructions. *)
Theorem deoptimizeInstructions_never_escapes order g i :
  escape_of g i = false →
  escape_of (deoptimizeInstructions PyCompile_OpcodeStackEffect order g) i = false.
Proof. apply lowering_keeps_false, deoptimizeInstructions_lowering. Qed.

Lemma stackEffectWrong_true (second : Instruction) es
    (edgesIn edgesOut : list (@Edge Source)) :
  - 2 ^ 31 ≤ PyCompile_OpcodeStackEffect (opcode second) (oparg second) < 2 ^ 31 →
  Z.of_nat (length es) < 2 ^ 63 →
  (length edgesIn ≤ length es)%nat → (length edgesOut ≤ length es)%nat →
  PyCompile_OpcodeStackEffect (opcode second) (oparg second)
    ≠ Z.of_nat (length edgesOut) - Z.of_nat (length edgesIn) →
  stackEffectWrong PyCompile_OpcodeStackEffect second edgesIn edgesOut = true.
Proof.
  intros Hint Hes Hin Hout Hne. unfold stackEffectWrong.
  apply negb_true_iff, Z.eqb_neq. intros Heq. apply Hne.
  apply size_t_compare in Heq; [done|done|lia|lia].
Qed.

(** C5, as the code has it.  An instruction that enters
    [deoptimizeInstructions] escaped, and whose stack effect in the opcode
    table differs from the number of the outbound edges [getEdgesFrom]
    returns for it minus the number of the inbound edges [getEdges]
    returns for it (one edge for each stack position), leaves the pass
    with its escape flag cleared.  The stack effect is an [int] and the
    edge vector holds fewer than [2 ^ 63] edges. *)
Theorem deoptimizeInstructions_wrong_stack_effect order g i ins :
  i ∈ order →
  instructions g !! i = Some ins →
  escape ins = true →
  - 2 ^ 31 ≤ PyCompile_OpcodeStackEffect (opcode ins) (oparg ins) < 2 ^ 31 →
  Z.of_nat (length (edges g)) < 2 ^ 63 →
  PyCompile_OpcodeStackEffect (opcode ins) (oparg ins)
    ≠ Z.of_nat (length (getEdgesFrom g i)) - Z.of_nat (length (getEdges g i)) →
  escape_of (deoptimizeInstructions PyCompile_OpcodeStackEffect order g) i = false.
Proof.
  intros (order1 & order2 & ->)%list_elem_of_split Hi Hescape Hint Hsize Hne.
  destruct (deoptimizeInstructions_lowering order1 g) as [Hedges [_ Hkeeps]].
  unfold deoptimizeInstructions in *.
  rewrite for_each_instruction_app, for_each_instruction_cons.
  set (g1 := for_each_instruction order1 _ g) in *.
  destruct (Hkeeps _ _ Hi) as (ins1 & Hi1 & Hop & Harg). rewrite Hi1.
  apply (lowering_keeps_false _ _ i (deoptimizeInstructions_lowering order2 _)).
  apply deoptimizeInstruction_wrong; [done|].
  unfold getEdges, getEdgesFrom in *. rewrite Hedges.
  apply (stackEffectWrong_true _ (edges g)); rewrite ?Hop, ?Harg;
    auto using collectEdges_length.
Qed.

End PassFacts.

(** C5, as stated, fails: in the graph of [fan_code] that enters
    [deoptimizeInstructions], [LOAD_CONST] at index 0 is escaped, two edges
    of the edge vector leave it (to 2 and to 4, both at position 0) and
    none enters it, so that its stack effect 1 differs from [2 - 0]; yet
    it leaves the pass escaped, whether the pass visits the instructions
    in ascending or in descending order.  [getEdgesFrom] returns one of
    the two edges only. *)
Lemma deoptimizeInstructions_counts_one_edge_per_position :
  ∃ g ins,
    ShadowExample.fan_entering = Some g ∧
    instructions g !! 0 = Some ins ∧
    escape ins = true ∧
    Sample.PyCompile_OpcodeStackEffect (opcode ins) (oparg ins)
      ≠ Z.of_nat (length (filter (λ e, from e = 0) (edges g)))
        - Z.of_nat (length (filter (λ e, to e = 0) (edges g))) ∧
    escape_of (deoptimizeInstructions Sample.PyCompile_OpcodeStackEffect
                 [0; 2; 4; 6] g) 0 = true ∧
    escape_of (deoptimizeInstructions Sample.PyCompile_OpcodeStackEffect
                 [6; 4; 2; 0] g) 0 = true.
Proof.
  destruct ShadowExample.fan_entering as [g|] eqn:Hg; [|by vm_compute in Hg].
  exists g, (mkInstruction 0 Sample.LOAD_CONST 0 true).
  vm_compute in Hg. injection Hg as <-.
  split; [done|]. split; [by vm_compute|]. split; [done|].
  split; [by vm_compute|]. split; by vm_compute.
Qed.

(** * The constructor *)

Section ConstructorFacts.
Context {Source : Type}.
Variable producer : Source → Z.
Variable isConsumedBy : Source → Z → option nat.
Variable supportsUnboxing : Z → bool.
Variable supportsEscaping : AbstractValueKind → bool.
Variable PyCompile_OpcodeStackEffect : Z → Z → Z.

Abbreviation Graph' := (@InstructionGraph Source).
Abbreviation decode' := (decode producer isConsumedBy).
Abbreviation Inv := (escape_invariant supportsUnboxing supportsEscaping).
Implicit Types (g : Graph') (e : @Edge Source).

Lemma all_clear_insert m i ins :
  all_clear m → escape ins = false → all_clear (<[i := ins]> m).
Proof.
  intros Hm Hins k x. destruct (decide (i = k)) as [->|Hne].
  - rewrite lookup_insert_eq. by intros [= <-].
  - rewrite lookup_insert_ne by done. apply Hm.
Qed.

Lemma recordInstruction_clear stacks index opcode oparg g :
  all_clear (instructions g) →
  all_clear (instructions
               (recordInstruction producer isConsumedBy stacks index opcode oparg g)).
Proof. intros H. by apply all_clear_insert. Qed.

(** The decoding loop leaves every escape flag [false]. *)
Lemma decode_clear stacks (n : nat) :
  ∀ code curByte g g',
    (length code ≤ n)%nat →
    all_clear (instructions g) →
    decode' stacks curByte code g = Some g' →
    all_clear (instructions g').
Proof.
  induction n as [|n IH]; intros code curByte g g' Hlen Hg.
  - destruct code; [|cbn in Hlen; lia]. cbn. by intros [= <-].
  - destruct code as [|[opcode oparg] rest]; [cbn; by intros [= <-]|].
    cbn [decode]. cbn [length] in Hlen.
    destruct (decide (opcode = EXTENDED_ARG)).
    + destruct rest as [|[opcode' oparg'] rest']; [done|].
      cbn [length] in Hlen. apply IH; [lia|].
      apply recordInstruction_clear. by apply all_clear_insert.
    + apply IH; [lia|]. by apply recordInstruction_clear.
Qed.

Lemma all_clear_invariant g : all_clear (instructions g) → Inv g.
Proof. intros H i ins Hi He. rewrite (H _ _ Hi) in He. done. Qed.

Lemma escapable_at_edges g g' i ins ins' :
  edges g' = edges g → opcode ins' = opcode ins →
  escapable_at supportsUnboxing supportsEscaping g i ins →
  escapable_at supportsUnboxing supportsEscaping g' i ins'.
Proof.
  unfold escapable_at, getEdges, getEdgesFrom. intros -> ->. done.
Qed.

Lemma allEscapable_true (es : list (@Edge Source)) :
  allEscapable supportsEscaping es = true →
  ∀ e, e ∈ es → supportsEscaping (kind e) = true.
Proof.
  unfold allEscapable. rewrite forallb_forall.
  intros H e He. apply H. by apply list_elem_of_In.
Qed.

Lemma fixInstruction_invariant first second g :
  instructions g !! first = Some second →
  Inv g → Inv (fixInstruction supportsUnboxing supportsEscaping first second g).
Proof.
  intros Hfirst HI. unfold fixInstruction.
  destruct (supportsUnboxing (opcode second)) eqn:Hu; cbn [negb]; [|done].
  case_bool_decide as Hfast; [done|].
  destruct (allEscapable supportsEscaping (getEdges g first)) eqn:Hin;
    cbn [negb]; [|done].
  destruct (allEscapable supportsEscaping (getEdgesFrom g first)) eqn:Hout;
    cbn [negb]; [|done].
  intros i ins. cbn [instructions with_instructions].
  destruct (decide (first = i)) as [<-|Hne].
  - rewrite lookup_alter_eq, Hfirst. intros [= <-] _.
    split; [done|]. split; [tauto|]. split; [tauto|].
    split; by apply allEscapable_true.
  - rewrite lookup_alter_ne by done. intros Hi He.
    by apply (escapable_at_edges g _ i ins ins), HI.
Qed.

Lemma fixInstructions_invariant order g :
  Inv g → Inv (fixInstructions supportsUnboxing supportsEscaping order g).
Proof.
  unfold fixInstructions.
  apply (for_each_instruction_rel (λ g g', Inv g → Inv g')); [auto..|].
  intros first second g0. apply fixInstruction_invariant.
Qed.

Lemma lowering_invariant g g' : lowering g g' → Inv g → Inv g'.
Proof.
  intros [He [Hl _]] HI i ins' Hi' Hesc.
  destruct (Hl _ _ Hi' Hesc) as (ins & Hi & Hesc0 & Hop & _).
  by apply (escapable_at_edges g g' i ins ins'), HI.
Qed.

Lemma fixEdges_invariant g : Inv g → Inv (fixEdges g).
Proof.
  intros HI i ins' Hi' Hesc.
  destruct (fixEdges_lowers g) as [Hl _].
  destruct (Hl _ _ Hi' Hesc) as (ins & Hi & Hesc0 & Hop & _).
  destruct (HI _ _ Hi Hesc0) as (H1 & H2 & H3 & H4 & H5).
  unfold escapable_at, getEdges, getEdgesFrom. rewrite fixEdges_edges, Hop.
  rewrite !collectEdges_fmap by done.
  repeat split; try done.
  - intros e (e0 & -> & He0)%list_elem_of_fmap. exact (H4 e0 He0).
  - intros e (e0 & -> & He0)%list_elem_of_fmap. exact (H5 e0 He0).
Qed.

(** The graph a successful construction returns satisfies the invariant. *)
Lemma InstructionGraph_new_invariant order1 order2 code stacks g :
  InstructionGraph_new producer isConsumedBy supportsUnboxing supportsEscaping
    PyCompile_OpcodeStackEffect order1 order2 code stacks = Some g →
  Inv g.
Proof.
  unfold InstructionGraph_new.
  destruct (decode _ _ stacks 0 code _) as [g0|] eqn:Hdec; [|done].
  intros [= <-]. apply fixEdges_invariant. unfold fixLocals.
  eapply lowering_invariant; [apply deoptimizeInstructions_lowering|].
  apply fixInstructions_invariant, all_clear_invariant.
  eapply (decode_clear stacks (length code)); [done| |exact Hdec].
  intros i ins. cbn. by rewrite lookup_empty.
Qed.

(** On the edge vector itself: an edge into, or out of, an escaped
    instruction has an escapable kind unless a later edge into, or out of,
    that instruction stands at the same position. *)
Lemma InstructionGraph_escaped_unshadowed order1 order2 code stacks g i ins
    (es1 : list (@Edge Source)) e es2 :
  InstructionGraph_new producer isConsumedBy supportsUnboxing supportsEscaping
    PyCompile_OpcodeStackEffect order1 order2 code stacks = Some g →
  instructions g !! i = Some ins →
  escape ins = true →
  edges g = es1 ++ e :: es2 →
  (to e = i →
   (∀ e', e' ∈ es2 → to e' = i → position e' ≠ position e) →
   supportsEscaping (kind e) = true) ∧
  (from e = i →
   (∀ e', e' ∈ es2 → from e' = i → position e' ≠ position e) →
   supportsEscaping (kind e) = true).
Proof.
  intros Hnew Hi Hesc Hedges.
  destruct (InstructionGraph_new_invariant _ _ _ _ _ Hnew i ins Hi Hesc)
    as (_ & _ & _ & Hin & Hout).
  unfold getEdges, getEdgesFrom in *. rewrite Hedges in Hin, Hout.
  split; intros Hsel Hlater; [apply Hin|apply Hout];
    by apply collectEdges_last.
Qed.

(** C2, as the code has it.  In the graph the constructor returns, an
    instruction whose escape flag is [true] has an opcode of the unboxing
    whitelist other than [LOAD_FAST] and [STORE_FAST], and each of the
    inbound edges [getEdges] returns for it and of the outbound edges
    [getEdgesFrom] returns for it (for each stack position, the last edge
    of the edge vector) has a kind that supports escaping. *)
Theorem InstructionGraph_escaped_instruction order1 order2 code stacks g i ins :
  InstructionGraph_new producer isConsumedBy supportsUnboxing supportsEscaping
    PyCompile_OpcodeStackEffect order1 order2 code stacks = Some g →
  instructions g !! i = Some ins →
  escape ins = true →
  supportsUnboxing (opcode ins) = true ∧
  opcode ins ≠ LOAD_FAST ∧ opcode ins ≠ STORE_FAST ∧
  (∀ e, e ∈ getEdges g i → supportsEscaping (kind e) = true) ∧
  (∀ e, e ∈ getEdgesFrom g i → supportsEscaping (kind e) = true).
Proof.
  intros Hnew Hi Hesc.
  exact (InstructionGraph_new_invariant _ _ _ _ _ Hnew i ins Hi Hesc).
Qed.

End ConstructorFacts.

(** C2, as stated, fails: in the graph the constructor returns for
    [ShadowExample.code], [UNARY_NEGATIVE] at index 2 is escaped and the
    edge vector holds an edge into it, painted [Unboxed], whose kind
    [AVK_String] does not support escaping.  The integer edge that follows
    it in the vector stands at the same position, and is the one
    [getEdges] returns. *)
Lemma InstructionGraph_escaped_with_shadowed_edge :
  ∃ g,
    Sample.new ShadowExample.order ShadowExample.code ShadowExample.stacks
      = Some g ∧
    escape_of g 2 = true ∧
    ShadowExample.string_edge ∈ edges g ∧
    to ShadowExample.string_edge = 2 ∧
    escaped ShadowExample.string_edge = Unboxed ∧
    Sample.supportsEscaping (kind ShadowExample.string_edge) = false ∧
    ShadowExample.string_edge ∉ getEdges g 2.
Proof.
  destruct (Sample.new ShadowExample.order ShadowExample.code ShadowExample.stacks)
    as [g|] eqn:Hg; [|by vm_compute in Hg].
  exists g. vm_compute in Hg. injection Hg as <-.
  split; [done|]. split; [by vm_compute|]. split; [vm_compute; left|].
  split; [done|]. split; [done|]. split; [by vm_compute|].
  intros Hin. vm_compute in Hin.
  apply elem_of_cons in Hin as [Heq|Hin]; [discriminate Heq|].
  by apply elem_of_nil in Hin.
Qed.

(** * The accessor getEdges *)

Section GetEdges.
Context {Source : Type}.
Implicit Types (g : @InstructionGraph Source).

(** C7, as the code has it.  The inbound edges [getEdges] returns for [pc]
    are in strictly ascending stack position, hence at most one per
    position; each is an edge of the graph into [pc]; and their positions
    are exactly the positions of the edges of the graph into [pc].  The
    positions need not start at 0 nor be contiguous. *)
Theorem getEdges_ascending_positions g pc :
  StronglySorted lt (position <$> getEdges g pc) ∧
  (∀ e, e ∈ getEdges g pc → e ∈ edges g ∧ to e = pc) ∧
  (∀ p : nat, p ∈ position <$> getEdges g pc ↔
              ∃ e, e ∈ edges g ∧ to e = pc ∧ position e = p).
Proof.
  split; [apply collectEdges_sorted|].
  split; [apply collectEdges_elem_of|apply collectEdges_positions].
Qed.

End GetEdges.

(** C7, as stated, fails: in the graph built for [gap_stacks] the only
    inbound edge of [BINARY_ADD], at index 4, is at position 1, so the
    positions of its [k = 1] inbound edges are not [0 .. k-1], and the
    stack slot at position 0 has no edge. *)
Lemma getEdges_positions_not_contiguous :
  ∃ g, Sample.new Sample.add_order Sample.gap_code Sample.gap_stacks = Some g ∧
       position <$> getEdges g 4 = [1%nat] ∧
       position <$> getEdges g 4 ≠ seq 0 (length (getEdges g 4)).
Proof.
  destruct (Sample.new Sample.add_order Sample.gap_code Sample.gap_stacks)
    as [g|] eqn:Hg; [|by vm_compute in Hg].
  exists g. vm_compute in Hg. injection Hg as <-.
  split; [done|]. split; [by vm_compute|]. by vm_compute.
Qed.

(** * EXTENDED_ARG in the constructor *)

Section ExtendedArg.
Context {Source : Type}.
Variable producer : Source → Z.
Variable isConsumedBy : Source → Z → option nat.
Variable supportsUnboxing : Z → bool.
Variable supportsEscaping : AbstractValueKind → bool.
Variable PyCompile_OpcodeStackEffect : Z → Z → Z.

Implicit Types (g : @InstructionGraph Source).

Lemma kept_refl g : kept g g.
Proof. intros i ins H. eauto. Qed.

Lemma kept_trans g1 g2 g3 : kept g1 g2 → kept g2 g3 → kept g1 g3.
Proof.
  intros K1 K2 i ins H1.
  destruct (K1 _ _ H1) as (ins2 & H2 & O2 & P2).
  destruct (K2 _ _ H2) as (ins3 & H3 & O3 & P3).
  exists ins3. repeat split; congruence.
Qed.

Lemma lowering_kept g g' : lowering g g' → kept g g'.
Proof. by intros [_ [_ K]]. Qed.

Lemma fixInstruction_kept first second g :
  kept g (fixInstruction supportsUnboxing supportsEscaping first second g).
Proof.
  unfold fixInstruction.
  repeat (destruct (negb _) || case_bool_decide); try apply kept_refl.
  intros i ins Hi. cbn [instructions with_instructions].
  destruct (decide (first = i)) as [->|Hne].
  - rewrite lookup_alter_eq, Hi. eauto.
  - rewrite lookup_alter_ne by done. eauto.
Qed.

Lemma InstructionGraph_new_kept order1 order2 code stacks g0 :
  decode producer isConsumedBy stacks 0 code {| instructions := ∅; edges := [] |}
    = Some g0 →
  ∃ g, InstructionGraph_new producer isConsumedBy supportsUnboxing supportsEscaping
         PyCompile_OpcodeStackEffect order1 order2 code stacks = Some g ∧
       kept g0 g.
Proof.
  intros Hdec. unfold InstructionGraph_new. rewrite Hdec.
  eexists. split; [done|]. unfold fixLocals.
  eapply kept_trans; [|intros i ins; apply fixEdges_lowers].
  eapply kept_trans; [|apply lowering_kept, deoptimizeInstructions_lowering].
  unfold fixInstructions. apply for_each_instruction_rel;
    eauto using kept_refl, kept_trans, fixInstruction_kept.
Qed.

(** One [EXTENDED_ARG] prefix is folded into the oparg recorded at the
    index of the opcode it precedes. *)
Lemma EXTENDED_ARG_single_prefix order1 order2 stacks (a op b : Z) :
  ∃ g ins,
    InstructionGraph_new producer isConsumedBy supportsUnboxing supportsEscaping
      PyCompile_OpcodeStackEffect order1 order2
      [(EXTENDED_ARG, a); (op, b)] stacks = Some g ∧
    instructions g !! 2 = Some ins ∧
    opcode ins = op ∧ oparg ins = Z.lor (Z.shiftl a 8) b.
Proof.
  destruct (InstructionGraph_new_kept order1 order2
              [(EXTENDED_ARG, a); (op, b)] stacks
              (recordInstruction producer isConsumedBy stacks 2 op
                 (Z.lor (Z.shiftl a 8) b)
                 {| instructions :=
                      <[0 := mkInstruction 0 EXTENDED_ARG a false]> ∅;
                    edges := [] |}))
    as (g & Hg & K); [done|].
  destruct (K 2 (mkInstruction 2 op (Z.lor (Z.shiftl a 8) b) false))
    as (ins & Hins & Hop & Harg); [apply lookup_insert_eq|].
  by exists g, ins.
Qed.

(** C6, at a chain of two prefixes.  For [EXTENDED_ARG a; EXTENDED_ARG b;
    op c] the constructor folds [a] and [b] into an instruction recorded at
    index 2 with opcode [EXTENDED_ARG], and records the terminating opcode
    at index 4 with the oparg [c] alone, not with the collapsed value
    [((a << 8 | b) << 8) | c]. *)
Theorem EXTENDED_ARG_chain_not_collapsed order1 order2 stacks (a b op c : Z) :
  op ≠ EXTENDED_ARG →
  ∃ g prefix ins,
    InstructionGraph_new producer isConsumedBy supportsUnboxing supportsEscaping
      PyCompile_OpcodeStackEffect order1 order2
      [(EXTENDED_ARG, a); (EXTENDED_ARG, b); (op, c)] stacks = Some g ∧
    instructions g !! 2 = Some prefix ∧
    opcode prefix = EXTENDED_ARG ∧ oparg prefix = Z.lor (Z.shiftl a 8) b ∧
    instructions g !! 4 = Some ins ∧
    opcode ins = op ∧ oparg ins = c.
Proof.
  intros Hop.
  destruct (InstructionGraph_new_kept order1 order2
              [(EXTENDED_ARG, a); (EXTENDED_ARG, b); (op, c)] stacks
              (recordInstruction producer isConsumedBy stacks 4 op c
                 (recordInstruction producer isConsumedBy stacks 2 EXTENDED_ARG
                    (Z.lor (Z.shiftl a 8) b)
                    {| instructions :=
                         <[0 := mkInstruction 0 EXTENDED_ARG a false]> ∅;
                       edges := [] |})))
    as (g & Hg & K).
  { cbn [decode]. rewrite decide_True by done. cbn [decode].
    by rewrite (decide_False (P := op = EXTENDED_ARG)) by done. }
  destruct (K 2 (mkInstruction 2 EXTENDED_ARG (Z.lor (Z.shiftl a 8) b) false))
    as (prefix & Hprefix & Hpop & Hparg).
  { cbn [recordInstruction instructions].
    rewrite lookup_insert_ne by done. apply lookup_insert_eq. }
  destruct (K 4 (mkInstruction 4 op c false))
    as (ins & Hins & Hiop & Hiarg); [apply lookup_insert_eq|].
  by exists g, prefix, ins.
Qed.

End ExtendedArg.

Lemma EXTENDED_ARG_chain_not_collapsed_witness :
  Sample.LOAD_CONST ≠ EXTENDED_ARG ∧
  ∃ g prefix ins,
    Sample.new Sample.add_order
      [(EXTENDED_ARG, 1); (EXTENDED_ARG, 2); (Sample.LOAD_CONST, 3)] ∅ = Some g ∧
    instructions g !! 2 = Some prefix ∧
    opcode prefix = EXTENDED_ARG ∧ oparg prefix = Z.lor (Z.shiftl 1 8) 2 ∧
    instructions g !! 4 = Some ins ∧
    opcode ins = Sample.LOAD_CONST ∧ oparg ins = 3.
Proof.
  assert (H : Sample.LOAD_CONST ≠ EXTENDED_ARG) by (vm_compute; discriminate).
  split; [exact H|].
  exact (EXTENDED_ARG_chain_not_collapsed Sample.producer Sample.isConsumedBy
           Sample.supportsUnboxing Sample.supportsEscaping
           Sample.PyCompile_OpcodeStackEffect Sample.add_order Sample.add_order
           ∅ 1 2 Sample.LOAD_CONST 3 H).
Defined.

(** * Concrete graphs *)

(** The graph built for [LOAD_CONST 0; LOAD_CONST 1; BINARY_ADD;
    RETURN_VALUE]: the addition is escaped, and so are the two constants;
    its result is boxed for [RETURN_VALUE]. *)
Lemma InstructionGraph_escaped_instruction_witness :
  ∃ g ins,
    Sample.new Sample.add_order Sample.add_code Sample.add_stacks = Some g ∧
    instructions g !! 4 = Some ins ∧ escape ins = true ∧
    (Sample.supportsUnboxing (opcode ins) = true ∧
     opcode ins ≠ LOAD_FAST ∧ opcode ins ≠ STORE_FAST ∧
     (∀ e, e ∈ getEdges g 4 → Sample.supportsEscaping (kind e) = true) ∧
     (∀ e, e ∈ getEdgesFrom g 4 → Sample.supportsEscaping (kind e) = true)).
Proof.
  destruct (Sample.new Sample.add_order Sample.add_code Sample.add_stacks)
    as [g|] eqn:Hg; [|by vm_compute in Hg].
  assert (Hi : instructions g !! 4 = Some (mkInstruction 4 Sample.BINARY_ADD 0 true)).
  { vm_compute in Hg. injection Hg as <-. by vm_compute. }
  exists g, (mkInstruction 4 Sample.BINARY_ADD 0 true).
  split; [done|]. split; [exact Hi|]. split; [done|].
  exact (InstructionGraph_escaped_instruction Sample.producer Sample.isConsumedBy
           Sample.supportsUnboxing Sample.supportsEscaping
           Sample.PyCompile_OpcodeStackEffect Sample.add_order Sample.add_order
           Sample.add_code Sample.add_stacks g 4 _ Hg Hi eq_refl).
Defined.

Lemma fixEdges_transition_table_witness :
  let e := {| from := 0; to := 2; value := Some AVK_Integer;
              source := Sample.mkSampleSource 0 [(2, 0%nat)];
              escaped := Box; kind := AVK_Integer; position := 0%nat |} in
  e ∈ edges (fixEdges Sample.boxed_graph) ∧
  escaped e =
    match escape_of (fixEdges Sample.boxed_graph) (from e),
          escape_of (fixEdges Sample.boxed_graph) (to e) with
    | false, false => NoEscape
    | false, true => Unbox
    | true, true => Unboxed
    | true, false => Box
    end.
Proof.
  intros e.
  assert (Hin : e ∈ edges (fixEdges Sample.boxed_graph)) by (vm_compute; left).
  exact (conj Hin (fixEdges_transition_table Sample.boxed_graph e Hin)).
Defined.

Lemma deoptimizeInstructions_never_escapes_witness :
  escape_of Sample.boxed_graph 2 = false ∧
  escape_of (deoptimizeInstructions Sample.PyCompile_OpcodeStackEffect [0; 2]
               Sample.boxed_graph) 2 = false.
Proof.
  split; [reflexivity|].
  apply (deoptimizeInstructions_never_escapes Sample.PyCompile_OpcodeStackEffect
           [0; 2] Sample.boxed_graph 2).
  reflexivity.
Defined.

Lemma deoptimizeInstructions_wrong_stack_effect_witness :
  escape_of Sample.unused_graph 0 = true ∧
  escape_of (deoptimizeInstructions Sample.PyCompile_OpcodeStackEffect [0]
               Sample.unused_graph) 0 = false.
Proof.
  split; [reflexivity|].
  apply (deoptimizeInstructions_wrong_stack_effect
           Sample.PyCompile_OpcodeStackEffect [0] Sample.unused_graph 0
           (mkInstruction 0 Sample.LOAD_CONST 0 true)).
  - left.
  - reflexivity.
  - reflexivity.
  - vm_compute. split; [discriminate|reflexivity].
  - vm_compute. reflexivity.
  - vm_compute. discriminate.
Defined.

(** * Abstract locals *)

Lemma merge_value_comm a b : merge_value a b = merge_value b a.
Proof. unfold merge_value. repeat case_decide; congruence. Qed.

Lemma merge_value_idemp a : merge_value a a = a.
Proof. unfold merge_value. by rewrite decide_True. Qed.

(** The merge of two values is [Undefined] only when both are. *)
Lemma merge_value_Undefined a b :
  merge_value a b = Undefined → a = Undefined ∧ b = Undefined.
Proof.
  unfold merge_value, Undefined, Any.
  destruct (decide (a = b)) as [->|Hab]; [done|].
  destruct (decide (a = AVK_Undefined)) as [->|Ha]; [done|].
  destruct (decide (b = AVK_Undefined)) as [->|Hb]; done.
Qed.

Lemma combine_comm one two : combine one two = combine two one.
Proof.
  destruct one as [a|], two as [b|]; cbn; try done.
  f_equal. f_equal; [apply union_comm_L|apply orb_comm|apply union_comm_L].
Qed.

Lemma combine_idemp one : combine one one = one.
Proof.
  destruct one as [[p e c]|]; cbn; [|done].
  by rewrite !union_idemp_L, orb_diag.
Qed.

Lemma AbstractValueWithSources_merge_with_comm
    (a b : AbstractValueWithSources AbstractSource) :
  AbstractValueWithSources_merge_with combine a b =
  AbstractValueWithSources_merge_with combine b a.
Proof.
  destruct a as [va sa], b as [vb sb].
  unfold AbstractValueWithSources_merge_with. cbn [Value Sources].
  rewrite (combine_comm sa sb). f_equal.
  destruct va, vb; try done. by rewrite merge_value_comm.
Qed.

Lemma AbstractValueWithSources_merge_with_idemp
    (a : AbstractValueWithSources AbstractSource) :
  Value a ≠ None → AbstractValueWithSources_merge_with combine a a = a.
Proof.
  destruct a as [[v|] s]; [|done]. intros _.
  unfold AbstractValueWithSources_merge_with. cbn [Value Sources].
  by rewrite combine_idemp, merge_value_idemp.
Qed.

Section LocalInfoFacts.
Context {Src : Type}.
Variable combineSources : option Src → option Src → option Src.
Implicit Types (x y z : AbstractLocalInfo Src).

Lemma AbstractLocalInfo_asserts_true (valueInfo : AbstractValueWithSources Src) isUndefined :
  AbstractLocalInfo_asserts valueInfo isUndefined = true ↔
  Value valueInfo ≠ None ∧
  ¬ (Value valueInfo = Some Undefined ∧ isUndefined = false).
Proof.
  unfold AbstractLocalInfo_asserts.
  rewrite andb_true_iff, negb_true_iff, andb_false_iff, negb_false_iff.
  rewrite bool_decide_eq_true, bool_decide_eq_false.
  destruct isUndefined; intuition congruence.
Qed.

Lemma AbstractLocalInfo_new_Some (valueInfo : AbstractValueWithSources Src) isUndefined x :
  AbstractLocalInfo_new valueInfo isUndefined = Some x ↔
  AbstractLocalInfo_asserts valueInfo isUndefined = true ∧
  x = {| ValueInfo := valueInfo; IsMaybeUndefined := isUndefined |}.
Proof.
  unfold AbstractLocalInfo_new.
  destruct (AbstractLocalInfo_asserts valueInfo isUndefined).
  - split; [by intros [= <-]|by intros [_ ->]].
  - split; [done|by intros [? _]].
Qed.

(** C8.  The constructor yields only locals that are well formed (a value
    is present, and it is not [Undefined] with [IsMaybeUndefined] false);
    the merge of two well-formed locals passes the assertions of the
    constructor, is well formed, and its [IsMaybeUndefined] is the
    disjunction of the two flags. *)
Theorem AbstractLocalInfo_never_leaks_Undefined :
  (∀ valueInfo isUndefined x,
     AbstractLocalInfo_new valueInfo isUndefined = Some x → well_formed x) ∧
  (∀ x y, well_formed x → well_formed y →
     ∃ z, merge_with combineSources x y = Some z ∧ well_formed z ∧
          IsMaybeUndefined z = IsMaybeUndefined x || IsMaybeUndefined y).
Proof.
  split.
  - intros valueInfo isUndefined x [Ha ->]%AbstractLocalInfo_new_Some.
    by apply AbstractLocalInfo_asserts_true in Ha.
  - intros x y [Hx Lx] [Hy Ly]. unfold merge_with.
    set (v := AbstractValueWithSources_merge_with combineSources
                (ValueInfo x) (ValueInfo y)).
    set (u := IsMaybeUndefined x || IsMaybeUndefined y).
    assert (Ha : AbstractLocalInfo_asserts v u = true).
    { apply AbstractLocalInfo_asserts_true. subst v u. cbn.
      unfold leaked_Undefined in Lx, Ly.
      destruct (Value (ValueInfo x)) as [a|]; [|done].
      destruct (Value (ValueInfo y)) as [b|]; [|done].
      split; [done|]. intros [[= Hm] Hu].
      apply merge_value_Undefined in Hm as [-> ->].
      apply orb_false_iff in Hu as [Hux Huy]. by apply Lx. }
    exists {| ValueInfo := v; IsMaybeUndefined := u |}.
    split; [by apply AbstractLocalInfo_new_Some|].
    split; [|done].
    by apply AbstractLocalInfo_asserts_true in Ha.
Qed.

End LocalInfoFacts.

(** C9.  With the merge rule of the value lattice and the source merge, the
    merge of abstract locals is commutative, and merging a local built by
    the constructor with itself gives that local back. *)
Theorem merge_with_commutative_idempotent :
  (∀ x y : AbstractLocalInfo AbstractSource,
     merge_with combine x y = merge_with combine y x) ∧
  (∀ valueInfo isUndefined (x : AbstractLocalInfo AbstractSource),
     AbstractLocalInfo_new valueInfo isUndefined = Some x →
     merge_with combine x x = Some x).
Proof.
  split.
  - intros x y. unfold merge_with.
    by rewrite AbstractValueWithSources_merge_with_comm, orb_comm.
  - intros valueInfo isUndefined x [Ha ->]%AbstractLocalInfo_new_Some.
    unfold merge_with. cbn [ValueInfo IsMaybeUndefined].
    rewrite orb_diag, AbstractValueWithSources_merge_with_idemp.
    + by apply AbstractLocalInfo_new_Some.
    + apply AbstractLocalInfo_asserts_true in Ha. tauto.
Qed.

Lemma AbstractLocalInfo_never_leaks_Undefined_witness :
  well_formed sample_int_local ∧
  ∃ z, merge_with combine sample_int_local sample_float_local = Some z ∧
       well_formed z ∧ IsMaybeUndefined z = true.
Proof.
  destruct (AbstractLocalInfo_never_leaks_Undefined combine) as [Hnew Hmerge].
  assert (H1 : well_formed sample_int_local).
  { apply (Hnew (ValueInfo sample_int_local) true). reflexivity. }
  assert (H2 : well_formed sample_float_local).
  { apply (Hnew (ValueInfo sample_float_local) false). reflexivity. }
  split; [exact H1|]. exact (Hmerge _ _ H1 H2).
Defined.

Lemma merge_with_commutative_idempotent_witness :
  merge_with combine sample_int_local sample_float_local
    = merge_with combine sample_float_local sample_int_local ∧
  merge_with combine sample_int_local sample_int_local = Some sample_int_local.
Proof.
  destruct merge_with_commutative_idempotent as [Hcomm Hidemp].
  split; [apply Hcomm|].
  apply (Hidemp (ValueInfo sample_int_local) true). reflexivity.
Defined.

(** * The stack of an interpreter state *)

Lemma escapes_lookup (res : AbstractValueWithSources SourceRef)
    (heap : gmap SourceRef AbstractSource) (r : SourceRef) :
  escapes res heap !! r =
  if decide (Sources res = Some r) then set_escapes <$> heap !! r else heap !! r.
Proof.
  unfold escapes. destruct (Sources res) as [r'|].
  - destruct (decide (Some r' = Some r)) as [[= ->]|Hne].
    + apply lookup_alter_eq.
    + apply lookup_alter_ne. congruence.
  - by rewrite decide_False.
Qed.

(** C10.  On a state whose stack is [rest] with [top] pushed last, [pop]
    returns the value of [top], leaves the stack [rest] and the locals as
    they were, and sets the escape bit of the source [top] points to, every
    other source being left as it was; [pop_no_escape] returns [top],
    leaves the same state and does not touch the heap of sources.  On an
    empty stack the assertion of either fails. *)
Theorem pop_removes_top_and_escapes rest top locals heap :
  (∃ heap',
     pop {| m_stack := rest ++ [top]; m_locals := locals |} heap
       = Some (Value top, {| m_stack := rest; m_locals := locals |}, heap') ∧
     (∀ r, Sources top = Some r → heap' !! r = set_escapes <$> heap !! r) ∧
     (∀ r, Sources top ≠ Some r → heap' !! r = heap !! r)) ∧
  pop_no_escape {| m_stack := rest ++ [top]; m_locals := locals |} heap
    = Some (top, {| m_stack := rest; m_locals := locals |}, heap) ∧
  pop {| m_stack := []; m_locals := locals |} heap = None ∧
  pop_no_escape {| m_stack := []; m_locals := locals |} heap = None.
Proof.
  split; [|split; [|done]].
  - exists (escapes top heap). unfold pop. cbn [m_stack m_locals].
    rewrite last_snoc, removelast_last. split; [done|].
    split; intros r Hr; rewrite escapes_lookup.
    + by rewrite decide_True.
    + by rewrite decide_False.
  - unfold pop_no_escape. cbn [m_stack m_locals].
    by rewrite last_snoc, removelast_last.
Qed.

Lemma pop_removes_top_and_escapes_witness :
  ∃ heap',
    pop {| m_stack := [sample_entry 1%positive; sample_entry 2%positive]
                        ++ [sample_entry 1%positive];
           m_locals := [] |} sample_heap
      = Some (Some AVK_Integer,
              {| m_stack := [sample_entry 1%positive; sample_entry 2%positive];
                 m_locals := [] |},
              heap') ∧
    heap' !! 1%positive = Some (mkSource {[0]} true ∅) ∧
    heap' !! 2%positive = Some (mkSource {[2]} false ∅).
Proof.
  destruct (pop_removes_top_and_escapes
              [sample_entry 1%positive; sample_entry 2%positive]
              (sample_entry 1%positive) [] sample_heap)
    as [(heap' & Hpop & Hesc & Hframe) _].
  exists heap'. split; [exact Hpop|]. split.
  - etrans; [exact (Hesc 1%positive eq_refl)|reflexivity].
  - etrans; [apply (Hframe 2%positive); discriminate|reflexivity].
Defined.

Lemma getEdges_ascending_positions_witness :
  StronglySorted lt (position <$> getEdges Sample.boxed_graph 2) ∧
  ∀ e, e ∈ getEdges Sample.boxed_graph 2 →
       e ∈ edges Sample.boxed_graph ∧ to e = 2.
Proof.
  destruct (getEdges_ascending_positions Sample.boxed_graph 2) as (H1 & H2 & _).
  exact (conj H1 H2).
Defined.

(** * Further properties of the accessors *)

Lemma last_filter_Some {A} (P : A → Prop) `{!∀ x, Decision (P x)} (l : list A) (x : A) :
  last (filter P l) = Some x ↔
  ∃ l1 l2, l = l1 ++ x :: l2 ∧ P x ∧ ∀ y, y ∈ l2 → ¬ P y.
Proof.
  split.
  - induction l as [|a l IH] using rev_ind; [done|].
    rewrite filter_app. destruct (decide (P a)) as [Ha|Ha].
    + rewrite (filter_cons_True _ a []) by done. rewrite filter_nil, last_snoc.
      intros [= <-]. exists l, []. split; [done|]. split; [done|].
      intros y Hy. by apply elem_of_nil in Hy.
    + rewrite (filter_cons_False _ a []) by done. rewrite filter_nil, app_nil_r.
      intros (l1 & l2 & -> & Hx & Hl2)%IH.
      exists l1, (l2 ++ [a]). split; [by rewrite <- app_assoc|]. split; [done|].
      intros y [Hy|Hy]%elem_of_app; [by apply Hl2|].
      apply list_elem_of_singleton in Hy as ->. done.
  - intros (l1 & l2 & -> & Hx & Hl2).
    rewrite filter_app, filter_cons_True by done.
    rewrite (filter_none P l2) by done. apply last_snoc.
Qed.

Lemma NoDup_fmap_eq {A B} (f : A → B) (l : list A) (x y : A) :
  NoDup (f <$> l) → x ∈ l → y ∈ l → f x = f y → x = y.
Proof.
  induction l as [|a l IH]; [by intros _ ?%elem_of_nil|].
  rewrite fmap_cons, NoDup_cons. intros [Ha Hl] Hx Hy Hf.
  apply elem_of_cons in Hx as [->|Hx]; apply elem_of_cons in Hy as [->|Hy].
  - done.
  - destruct Ha. rewrite Hf. by apply list_elem_of_fmap_2.
  - destruct Ha. rewrite <- Hf. by apply list_elem_of_fmap_2.
  - by apply IH.
Qed.

Section AccessorsMore.
Context {Source : Type}.
Implicit Types (g : @InstructionGraph Source) (e : @Edge Source).
Implicit Types (sel : @Edge Source → Z) (es : list (@Edge Source)).

Lemma collectEdges_last_wins sel es idx e :
  e ∈ collectEdges sel es idx ↔
  ∃ es1 es2, es = es1 ++ e :: es2 ∧ sel e = idx ∧
             ∀ e', e' ∈ es2 → sel e' = idx → position e' ≠ position e.
Proof.
  rewrite elem_of_collectEdges, filterEdges_lookup, last_filter_Some.
  split.
  - intros (es1 & es2 & -> & [Hs _] & Hl). exists es1, es2.
    split; [done|]. split; [done|]. intros e' He' Hs' Hp.
    by apply (Hl e' He').
  - intros (es1 & es2 & -> & Hs & Hl). exists es1, es2.
    split; [done|]. split; [done|]. intros e' He' [Hs' Hp].
    by apply (Hl e' He').
Qed.

Lemma collectEdges_nil sel es idx :
  collectEdges sel es idx = [] ↔ ∀ e, e ∈ es → sel e ≠ idx.
Proof.
  split.
  - intros Hnil e He Hs.
    assert (Hp : position e ∈ position <$> collectEdges sel es idx)
      by (apply collectEdges_positions; eauto).
    rewrite Hnil in Hp. by apply elem_of_nil in Hp.
  - intros Hnone. destruct (collectEdges sel es idx) as [|x l] eqn:E; [done|].
    assert (Hx : x ∈ collectEdges sel es idx) by (rewrite E; left).
    apply collectEdges_elem_of in Hx as [Hx Hs]. by destruct (Hnone x Hx).
Qed.

Lemma collectEdges_all_when_distinct sel es idx :
  NoDup (position <$> filter (λ e, sel e = idx) es) →
  collectEdges sel es idx ≡ₚ filter (λ e, sel e = idx) es.
Proof.
  intros Hnd. apply NoDup_Permutation.
  - apply (NoDup_fmap_1 position), StronglySorted_lt_NoDup, collectEdges_sorted.
  - by apply (NoDup_fmap_1 position).
  - intros e. rewrite list_elem_of_filter. split.
    + intros [He Hs]%collectEdges_elem_of. done.
    + intros [Hs He]. apply elem_of_collectEdges.
      destruct (filterEdges_is_Some sel es idx e He Hs) as [e' He'].
      rewrite He'. f_equal.
      destruct (filterEdges_Some _ _ _ _ _ He') as (Hin' & Hs' & Hp').
      apply (NoDup_fmap_eq position (filter (λ e, sel e = idx) es)); try done.
      * by apply list_elem_of_filter.
      * by apply list_elem_of_filter.
Qed.

(** X1.  The outbound edges [getEdgesFrom] returns for [idx] are in
    strictly ascending stack position; each is an edge of the graph whose
    producer is [idx]; and their positions are exactly the positions of the
    edges of the graph out of [idx]. *)
Theorem getEdgesFrom_ascending_positions g idx :
  StronglySorted lt (position <$> getEdgesFrom g idx) ∧
  (∀ e, e ∈ getEdgesFrom g idx → e ∈ edges g ∧ from e = idx) ∧
  (∀ p : nat, p ∈ position <$> getEdgesFrom g idx ↔
              ∃ e, e ∈ edges g ∧ from e = idx ∧ position e = p).
Proof.
  split; [apply collectEdges_sorted|].
  split; [apply collectEdges_elem_of|apply collectEdges_positions].
Qed.

(** X2.  Of the edges that share a target (for [getEdges]) or a producer
    (for [getEdgesFrom]) and a stack position, the accessor returns the one
    that comes last in the edge vector, and only that one: an edge is
    returned exactly when no later edge of the vector with the same target
    (producer) stands at its position. *)
Theorem getEdges_last_edge_wins g idx e :
  (e ∈ getEdges g idx ↔
   ∃ es1 es2, edges g = es1 ++ e :: es2 ∧ to e = idx ∧
              ∀ e', e' ∈ es2 → to e' = idx → position e' ≠ position e) ∧
  (e ∈ getEdgesFrom g idx ↔
   ∃ es1 es2, edges g = es1 ++ e :: es2 ∧ from e = idx ∧
              ∀ e', e' ∈ es2 → from e' = idx → position e' ≠ position e).
Proof. split; apply collectEdges_last_wins. Qed.

(** X3.  [getEdges] returns the empty vector exactly when no edge of the
    graph has the target [idx], and [getEdgesFrom] exactly when no edge has
    the producer [idx]: the scan of position 0 with an empty map returns
    nothing. *)
Theorem getEdges_empty_iff g idx :
  (getEdges g idx = [] ↔ ∀ e, e ∈ edges g → to e ≠ idx) ∧
  (getEdgesFrom g idx = [] ↔ ∀ e, e ∈ edges g → from e ≠ idx).
Proof. split; apply collectEdges_nil. Qed.

(** X4.  When no two edges into [idx] share a stack position, [getEdges]
    returns all the edges into [idx], each once: the result is a
    permutation of the edges of the vector whose target is [idx]. *)
Theorem getEdges_complete_when_positions_distinct g idx :
  NoDup (position <$> filter (λ e, to e = idx) (edges g)) →
  getEdges g idx ≡ₚ filter (λ e, to e = idx) (edges g).
Proof. apply collectEdges_all_when_distinct. Qed.

End AccessorsMore.

Lemma getEdgesFrom_ascending_positions_witness :
  StronglySorted lt (position <$> getEdgesFrom Sample.boxed_graph 0) ∧
  ∀ e, e ∈ getEdgesFrom Sample.boxed_graph 0 →
       e ∈ edges Sample.boxed_graph ∧ from e = 0.
Proof.
  destruct (getEdgesFrom_ascending_positions Sample.boxed_graph 0) as (H1 & H2 & _).
  exact (conj H1 H2).
Defined.

Lemma getEdges_complete_when_positions_distinct_witness :
  getEdges Sample.boxed_graph 2 ≡ₚ filter (λ e, to e = 2) (edges Sample.boxed_graph).
Proof.
  apply (getEdges_complete_when_positions_distinct Sample.boxed_graph 2).
  vm_compute. apply NoDup_singleton.
Defined.

(** * Further properties of fixInstructions *)

Lemma graph_eq {Source} (g1 g2 : @InstructionGraph Source) :
  instructions g1 = instructions g2 → edges g1 = edges g2 → g1 = g2.
Proof. destruct g1, g2. cbn. by intros -> ->. Qed.

Lemma set_escape_set_escape b b' ins :
  set_escape b' (set_escape b ins) = set_escape b' ins.
Proof. done. Qed.

Lemma set_escape_same ins : set_escape (escape ins) ins = ins.
Proof. by destruct ins. Qed.

Section FixInstructionsMore.
Context {Source : Type}.
Variable supportsUnboxing : Z → bool.
Variable supportsEscaping : AbstractValueKind → bool.
Implicit Types (g : @InstructionGraph Source).

Abbreviation conditions := (escapeConditions supportsUnboxing supportsEscaping).
Abbreviation fixAll := (fixInstructions supportsUnboxing supportsEscaping).

Lemma fixInstruction_conditions first second g :
  fixInstruction supportsUnboxing supportsEscaping first second g =
  if conditions g first second
  then with_instructions (alter (set_escape true) first (instructions g)) g
  else g.
Proof.
  unfold fixInstruction, escapeConditions.
  destruct (supportsUnboxing (opcode second)); cbn [negb andb]; [|done].
  destruct (bool_decide _); cbn [negb andb]; [done|].
  destruct (allEscapable _ (getEdges g first)); cbn [negb andb]; [|done].
  by destruct (allEscapable _ (getEdgesFrom g first)).
Qed.

Lemma escapeConditions_ext g g' first second second' :
  edges g' = edges g → opcode second' = opcode second →
  conditions g' first second' = conditions g first second.
Proof.
  unfold escapeConditions, getEdges, getEdgesFrom. by intros -> ->.
Qed.

Lemma bool_decide_elem_snoc (i k : Z) (order : list Z) :
  bool_decide (i ∈ order ++ [k]) = bool_decide (i ∈ order) || bool_decide (i = k).
Proof.
  rewrite <- bool_decide_or. apply bool_decide_ext.
  by rewrite elem_of_app, list_elem_of_singleton.
Qed.

(** The entry of an instruction after the pass, and the edges. *)
Lemma fixInstructions_lookup order g :
  edges (fixAll order g) = edges g ∧
  ∀ i, instructions (fixAll order g) !! i =
       (λ ins, if bool_decide (i ∈ order) && conditions g i ins
               then set_escape true ins else ins) <$> instructions g !! i.
Proof.
  induction order as [|k order IH] using rev_ind.
  - split; [done|]. intros i. cbn. by destruct (instructions g !! i).
  - destruct IH as [IHe IHl]. unfold fixInstructions in *.
    rewrite for_each_instruction_app. cbn [for_each_instruction foldl].
    set (g' := for_each_instruction order _ g) in *.
    assert (Hne : ∀ i x, i ≠ k →
              (if bool_decide (i ∈ order ++ [k]) && conditions g i x
               then set_escape true x else x) =
              (if bool_decide (i ∈ order) && conditions g i x
               then set_escape true x else x)).
    { intros i x Hik. rewrite bool_decide_elem_snoc.
      by rewrite (bool_decide_eq_false_2 (i = k)), orb_false_r. }
    pose proof (IHl k) as Hk.
    destruct (instructions g !! k) as [ins|] eqn:Eg; cbn in Hk; rewrite Hk.
    + rewrite fixInstruction_conditions.
      set (second := if bool_decide (k ∈ order) && conditions g k ins
                     then set_escape true ins else ins) in *.
      assert (Hop : opcode second = opcode ins)
        by (subst second; by destruct (_ && _)).
      rewrite (escapeConditions_ext g g' k ins second IHe Hop).
      destruct (conditions g k ins) eqn:Hc.
      * split; [done|]. intros i. cbn [instructions with_instructions].
        destruct (decide (i = k)) as [->|Hik].
        -- rewrite lookup_alter_eq, Hk, Eg. cbn.
           rewrite bool_decide_elem_snoc, (bool_decide_eq_true_2 (k = k)) by done.
           rewrite orb_true_r, Hc. cbn. subst second. by destruct (_ && _).
        -- rewrite lookup_alter_ne, IHl by done.
           destruct (instructions g !! i) as [x|]; [|done]. cbn.
           by rewrite Hne.
      * split; [done|]. intros i. rewrite IHl.
        destruct (instructions g !! i) as [x|] eqn:Ei; [|done]. cbn. f_equal.
        destruct (decide (i = k)) as [->|Hik]; [|by rewrite Hne].
        assert (x = ins) as -> by congruence.
        by rewrite Hc, !andb_false_r.
    + split; [done|]. intros i. rewrite IHl.
      destruct (instructions g !! i) as [x|] eqn:Ei; [|done]. cbn. f_equal.
      destruct (decide (i = k)) as [->|Hik]; [congruence|by rewrite Hne].
Qed.

(** X5.  [fixInstructions] does not depend on the order in which the
    instruction map is traversed: two orders that visit the same keys give
    the same graph. *)
Theorem fixInstructions_order_independent order1 order2 g :
  (∀ i, i ∈ order1 ↔ i ∈ order2) →
  fixInstructions supportsUnboxing supportsEscaping order1 g =
  fixInstructions supportsUnboxing supportsEscaping order2 g.
Proof.
  intros Hsame.
  destruct (fixInstructions_lookup order1 g) as [He1 Hl1].
  destruct (fixInstructions_lookup order2 g) as [He2 Hl2].
  apply graph_eq; [|congruence].
  apply map_eq. intros i. rewrite Hl1, Hl2.
  by rewrite (bool_decide_ext _ _ (Hsame i)).
Qed.

(** X6.  [fixInstructions] only raises flags: the flag of a visited
    instruction after the pass is its flag before the pass or the outcome
    of the four tests (opcode in the whitelist, not [LOAD_FAST] nor
    [STORE_FAST], every inbound and every outbound edge of an escapable
    kind); an instruction that is escaped before the pass stays escaped
    even when it fails the tests.  The edge vector is left as it was. *)
Theorem fixInstructions_flag order g i ins :
  instructions g !! i = Some ins →
  i ∈ order →
  escape_of (fixInstructions supportsUnboxing supportsEscaping order g) i
  = escape ins || escapeConditions supportsUnboxing supportsEscaping g i ins ∧
  edges (fixInstructions supportsUnboxing supportsEscaping order g) = edges g.
Proof.
  intros Hi Hin. destruct (fixInstructions_lookup order g) as [He Hl].
  split; [|done]. unfold escape_of. rewrite Hl, Hi. cbn.
  rewrite bool_decide_eq_true_2 by done. cbn.
  destruct (conditions g i ins); cbn; [by rewrite orb_true_r|by rewrite orb_false_r].
Qed.

End FixInstructionsMore.

Lemma fixInstructions_order_independent_witness :
  fixInstructions Sample.supportsUnboxing Sample.supportsEscaping [0; 2]
    Sample.boxed_graph =
  fixInstructions Sample.supportsUnboxing Sample.supportsEscaping [2; 0; 2]
    Sample.boxed_graph.
Proof.
  apply fixInstructions_order_independent.
  intros i. rewrite !elem_of_cons, !elem_of_nil. tauto.
Defined.

Lemma fixInstructions_flag_witness :
  escape_of (fixInstructions Sample.supportsUnboxing Sample.supportsEscaping [0; 2]
               Sample.boxed_graph) 2 = false.
Proof.
  destruct (fixInstructions_flag Sample.supportsUnboxing Sample.supportsEscaping
              [0; 2] Sample.boxed_graph 2
              (mkInstruction 2 Sample.RETURN_VALUE 0 false))
    as [Hflag _].
  - reflexivity.
  - right. left.
  - rewrite Hflag. reflexivity.
Defined.

(** * Further properties of deoptimizeInstructions *)

Lemma instruction_at_lookup_Some m i k ins :
  m !! k = Some ins → (instruction_at m i).2 !! k = Some ins.
Proof.
  intros Hk. unfold instruction_at. destruct (m !! i) eqn:E; [done|].
  cbn [snd]. rewrite lookup_insert_ne; [done|]. congruence.
Qed.

Section DeoptimizeMore.
Context {Source : Type}.
Variable producer : Source → Z.
Variable isConsumedBy : Source → Z → option nat.
Variable supportsUnboxing : Z → bool.
Variable supportsEscaping : AbstractValueKind → bool.
Variable PyCompile_OpcodeStackEffect : Z → Z → Z.
Implicit Types (g : @InstructionGraph Source) (e : @Edge Source).

Abbreviation wrong := (stackEffectWrong PyCompile_OpcodeStackEffect).
Abbreviation deoptStep := (deoptimizeInstruction PyCompile_OpcodeStackEffect).
Abbreviation deoptAll := (deoptimizeInstructions PyCompile_OpcodeStackEffect).

Lemma stackEffectWrong_ext (second second' : Instruction)
    (edgesIn edgesOut edgesIn' edgesOut' : list (@Edge Source)) :
  opcode second' = opcode second → oparg second' = oparg second →
  length edgesIn' = length edgesIn → length edgesOut' = length edgesOut →
  wrong second' edgesIn' edgesOut' = wrong second edgesIn edgesOut.
Proof. unfold stackEffectWrong. by intros -> -> -> ->. Qed.

(** X7.  The comparison of the [int] stack effect with the [size_t]
    difference of the two sizes is exact, also when the instruction has
    more inbound than outbound edges and the difference wraps around: the
    stack effect is found right exactly when it equals the number of
    outbound edges minus the number of inbound edges. *)
Theorem stackEffectWrong_exact (second : Instruction)
    (edgesIn edgesOut : list (@Edge Source)) :
  - 2 ^ 31 ≤ PyCompile_OpcodeStackEffect (opcode second) (oparg second) < 2 ^ 31 →
  Z.of_nat (length edgesIn) < 2 ^ 63 →
  Z.of_nat (length edgesOut) < 2 ^ 63 →
  stackEffectWrong PyCompile_OpcodeStackEffect second edgesIn edgesOut = false ↔
  PyCompile_OpcodeStackEffect (opcode second) (oparg second)
    = Z.of_nat (length edgesOut) - Z.of_nat (length edgesIn).
Proof.
  intros Hint Hin Hout. unfold stackEffectWrong.
  rewrite negb_false_iff, Z.eqb_eq. by apply size_t_compare.
Qed.

Lemma deoptimizeInstruction_entry_other k second g i ins :
  k ≠ i → instructions g !! i = Some ins →
  instructions (deoptStep k second g) !! i = Some ins.
Proof.
  intros Hne Hi. unfold deoptimizeInstruction.
  destruct (negb (escape second)); [done|].
  destruct (wrong _ _ _).
  { cbn. by rewrite lookup_alter_ne. }
  destruct (getEdges g k) as [|in0 [|in1 ins']];
    destruct (getEdgesFrom g k) as [|out0 [|out1 outs]]; try done.
  - destruct (negb _); cbn.
    + rewrite lookup_alter_ne by done. by apply instruction_at_lookup_Some.
    + by apply instruction_at_lookup_Some.
  - destruct (negb _); cbn.
    + rewrite lookup_alter_ne by done. by apply instruction_at_lookup_Some.
    + by apply instruction_at_lookup_Some.
Qed.

(** The visit of an instruction, seen from the whole pass. *)
Lemma deoptimizeInstructions_visit order1 i order2 g :
  let g1 := deoptAll order1 g in
  deoptAll (order1 ++ i :: order2) g =
  deoptAll order2
    (match instructions g1 !! i with
     | Some second => deoptStep i second g1
     | None => g1
     end).
Proof.
  unfold deoptimizeInstructions.
  by rewrite for_each_instruction_app, for_each_instruction_cons.
Qed.

Lemma deoptimizeInstructions_checked order g i ins' :
  i ∈ order →
  instructions (deoptAll order g) !! i = Some ins' →
  escape ins' = true →
  wrong ins' (getEdges g i) (getEdgesFrom g i) = false.
Proof.
  intros (order1 & order2 & ->)%list_elem_of_split Hi' Hesc.
  rewrite deoptimizeInstructions_visit in Hi'. cbn zeta in Hi'.
  destruct (deoptimizeInstructions_lowering PyCompile_OpcodeStackEffect order1 g)
    as [He1 _].
  set (g1 := deoptAll order1 g) in *.
  destruct (instructions g1 !! i) as [ins1|] eqn:E1.
  - destruct (deoptimizeInstructions_lowering PyCompile_OpcodeStackEffect order2
                (deoptStep i ins1 g1)) as [_ [Hl2 _]].
    destruct (Hl2 _ _ Hi' Hesc) as (ins2 & Hi2 & Hesc2 & Hop2 & Harg2).
    destruct (deoptimizeInstruction_lowering PyCompile_OpcodeStackEffect i ins1 g1)
      as [_ [Hl1 _]].
    destruct (Hl1 _ _ Hi2 Hesc2) as (ins1' & Hi1 & _ & Hop1 & Harg1).
    assert (ins1' = ins1) as -> by congruence.
    destruct (wrong ins1 (getEdges g1 i) (getEdgesFrom g1 i)) eqn:Hw.
    + pose proof (deoptimizeInstruction_wrong PyCompile_OpcodeStackEffect
                    i ins1 g1 E1 Hw) as Hclear.
      unfold escape_of in Hclear. rewrite Hi2 in Hclear. congruence.
    + rewrite <- Hw. unfold getEdges, getEdgesFrom. rewrite He1.
      apply stackEffectWrong_ext; congruence.
  - destruct (deoptimizeInstructions_lowering PyCompile_OpcodeStackEffect order2 g1)
      as [_ [Hl2 _]].
    destruct (Hl2 _ _ Hi' Hesc) as (ins2 & Hi2 & _). congruence.
Qed.

(** X8.  In the graph the constructor returns, the stack effect of every
    escaped instruction that [deoptimizeInstructions] visited is right: the
    opcode table agrees with the sizes of [getEdgesFrom] and [getEdges]. *)
Theorem InstructionGraph_escaped_stack_effect order1 order2 code stacks g i ins :
  InstructionGraph_new producer isConsumedBy supportsUnboxing supportsEscaping
    PyCompile_OpcodeStackEffect order1 order2 code stacks = Some g →
  i ∈ order2 →
  instructions g !! i = Some ins →
  escape ins = true →
  stackEffectWrong PyCompile_OpcodeStackEffect ins (getEdges g i) (getEdgesFrom g i) = false.
Proof.
  unfold InstructionGraph_new.
  destruct (decode _ _ stacks 0 code _) as [g0|] eqn:Hdec; [|done].
  intros [= <-] Hin Hi Hesc. unfold fixLocals in *.
  set (gf := fixInstructions supportsUnboxing supportsEscaping order1 g0) in *.
  destruct (fixEdges_lowers (deoptAll order2 gf)) as [Hl _].
  destruct (Hl _ _ Hi Hesc) as (ins3 & Hi3 & Hesc3 & Hop & Harg).
  rewrite <- (deoptimizeInstructions_checked order2 gf i ins3 Hin Hi3 Hesc3).
  destruct (deoptimizeInstructions_lowering PyCompile_OpcodeStackEffect order2 gf)
    as [He _].
  unfold getEdges, getEdgesFrom. rewrite fixEdges_edges, He.
  rewrite !collectEdges_fmap by done.
  apply stackEffectWrong_ext; try done; apply length_fmap.
Qed.

(** X9.  An instruction without inbound edges and with a single outbound
    edge whose consumer is not escaped when the pass starts is not escaped
    when the pass ends. *)
Theorem deoptimizeInstructions_unescaped_consumer order g i out0 :
  i ∈ order →
  getEdges g i = [] →
  getEdgesFrom g i = [out0] →
  escape_of g (to out0) = false →
  escape_of (deoptimizeInstructions PyCompile_OpcodeStackEffect order g) i = false.
Proof.
  intros (order1 & order2 & ->)%list_elem_of_split Hin Hout Hnext.
  rewrite deoptimizeInstructions_visit. cbn zeta.
  pose proof (deoptimizeInstructions_lowering PyCompile_OpcodeStackEffect order1 g)
    as L1.
  set (g1 := deoptAll order1 g) in *.
  apply (lowering_keeps_false _ _ i
           (deoptimizeInstructions_lowering PyCompile_OpcodeStackEffect order2 _)).
  destruct (instructions g1 !! i) as [ins1|] eqn:E1;
    [|by unfold escape_of; rewrite E1].
  unfold deoptimizeInstruction.
  destruct (escape ins1) eqn:Hesc; cbn [negb];
    [|by unfold escape_of; rewrite E1, Hesc].
  destruct (wrong _ _ _); [apply alter_clear_escape_in|].
  destruct L1 as [He1 _]. unfold getEdges, getEdgesFrom in *.
  rewrite He1, Hin, Hout.
  rewrite instruction_at_fst.
  pose proof (lowering_keeps_false g g1 (to out0)
                (conj He1 (proj2 (deoptimizeInstructions_lowering
                                    PyCompile_OpcodeStackEffect order1 g))) Hnext)
    as Hnext1.
  unfold escape_of in Hnext1. unfold escape_in. 
  destruct (instructions g1 !! to out0) as [n|] eqn:En;
    [rewrite Hnext1|]; cbn [negb]; apply alter_clear_escape_in.
Qed.

(** X10.  An instruction with a single inbound edge and without outbound
    edges whose producer is not escaped when the pass starts, or is no
    instruction of the graph at all, is not escaped when the pass ends. *)
Theorem deoptimizeInstructions_unescaped_producer order g i in0 :
  i ∈ order →
  getEdges g i = [in0] →
  getEdgesFrom g i = [] →
  escape_of g (from in0) = false →
  escape_of (deoptimizeInstructions PyCompile_OpcodeStackEffect order g) i = false.
Proof.
  intros (order1 & order2 & ->)%list_elem_of_split Hin Hout Hprev.
  rewrite deoptimizeInstructions_visit. cbn zeta.
  pose proof (deoptimizeInstructions_lowering PyCompile_OpcodeStackEffect order1 g)
    as L1.
  set (g1 := deoptAll order1 g) in *.
  apply (lowering_keeps_false _ _ i
           (deoptimizeInstructions_lowering PyCompile_OpcodeStackEffect order2 _)).
  destruct (instructions g1 !! i) as [ins1|] eqn:E1;
    [|by unfold escape_of; rewrite E1].
  unfold deoptimizeInstruction.
  destruct (escape ins1) eqn:Hesc; cbn [negb];
    [|by unfold escape_of; rewrite E1, Hesc].
  destruct (wrong _ _ _); [apply alter_clear_escape_in|].
  pose proof (lowering_keeps_false g g1 (from in0) L1 Hprev) as Hprev1.
  destruct L1 as [He1 _]. unfold getEdges, getEdgesFrom in *.
  rewrite He1, Hin, Hout.
  rewrite instruction_at_fst.
  unfold escape_of in Hprev1. unfold escape_in.
  destruct (instructions g1 !! from in0) as [n|] eqn:En;
    [rewrite Hprev1|]; cbn [negb]; apply alter_clear_escape_in.
Qed.

(** X11.  An escaped instruction whose stack effect is right, and which is
    neither a producer without inputs and with a single output nor a
    consumer with a single input and without outputs, is still escaped
    after the pass, whatever the order of the visits and whatever happens
    to its neighbours. *)
Theorem deoptimizeInstructions_keeps_escaped order g i ins :
  instructions g !! i = Some ins →
  escape ins = true →
  stackEffectWrong PyCompile_OpcodeStackEffect ins
    (getEdges g i) (getEdgesFrom g i) = false →
  ¬ (getEdges g i = [] ∧ length (getEdgesFrom g i) = 1%nat) →
  ¬ (length (getEdges g i) = 1%nat ∧ getEdgesFrom g i = []) →
  instructions (deoptimizeInstructions PyCompile_OpcodeStackEffect order g) !! i
  = Some ins.
Proof.
  intros Hi Hesc Hw Hrule2 Hrule3.
  unfold deoptimizeInstructions.
  apply (for_each_instruction_rel
           (λ g0 g', edges g0 = edges g → instructions g0 !! i = Some ins →
                     edges g' = edges g ∧ instructions g' !! i = Some ins)
           deoptStep); [| | |done|done].
  - intros g0 He0 Hi0. by split.
  - intros g1 g2 g3 H12 H23 He1 Hi1.
    destruct (H12 He1 Hi1) as [He2 Hi2]. by apply H23.
  - intros first second g0 Hfirst He0 Hi0.
    destruct (deoptimizeInstruction_lowering PyCompile_OpcodeStackEffect
                first second g0) as [He' _].
    split; [congruence|].
    destruct (decide (first = i)) as [->|Hne];
      [|by apply deoptimizeInstruction_entry_other].
    assert (second = ins) as -> by congruence.
    unfold deoptimizeInstruction. rewrite Hesc. cbn [negb].
    unfold getEdges, getEdgesFrom in *. rewrite He0, Hw.
    destruct (collectEdges to (edges g) i) as [|in0 [|in1 ins']];
      destruct (collectEdges from (edges g) i) as [|out0 [|out1 outs]];
      try done.
    + destruct Hrule2. done.
    + destruct Hrule3. done.
Qed.

End DeoptimizeMore.

Lemma stackEffectWrong_exact_witness :
  stackEffectWrong Sample.PyCompile_OpcodeStackEffect
    (mkInstruction 4 Sample.BINARY_ADD 0 true)
    [MoreSamples.sum_edge 0 4 0; MoreSamples.sum_edge 2 4 1]
    [MoreSamples.sum_edge 4 6 0] = false.
Proof.
  apply (stackEffectWrong_exact Sample.PyCompile_OpcodeStackEffect
           (mkInstruction 4 Sample.BINARY_ADD 0 true)
           [MoreSamples.sum_edge 0 4 0; MoreSamples.sum_edge 2 4 1]
           [MoreSamples.sum_edge 4 6 0]).
  - vm_compute. split; [discriminate|reflexivity].
  - vm_compute. reflexivity.
  - vm_compute. reflexivity.
  - vm_compute. reflexivity.
Defined.

Lemma InstructionGraph_escaped_stack_effect_witness :
  ∃ g, Sample.new Sample.add_order Sample.add_code Sample.add_stacks = Some g ∧
       stackEffectWrong Sample.PyCompile_OpcodeStackEffect
         (mkInstruction 4 Sample.BINARY_ADD 0 true)
         (getEdges g 4) (getEdgesFrom g 4) = false.
Proof.
  destruct (Sample.new Sample.add_order Sample.add_code Sample.add_stacks)
    as [g|] eqn:Hg; [|by vm_compute in Hg].
  assert (Hi : instructions g !! 4 = Some (mkInstruction 4 Sample.BINARY_ADD 0 true)).
  { vm_compute in Hg. injection Hg as <-. by vm_compute. }
  exists g. split; [done|].
  apply (InstructionGraph_escaped_stack_effect Sample.producer Sample.isConsumedBy
           Sample.supportsUnboxing Sample.supportsEscaping
           Sample.PyCompile_OpcodeStackEffect Sample.add_order Sample.add_order
           Sample.add_code Sample.add_stacks g 4 _ Hg); [|exact Hi|reflexivity].
  unfold Sample.add_order. do 2 right. left.
Defined.

Lemma deoptimizeInstructions_unescaped_consumer_witness :
  escape_of Sample.boxed_graph 0 = true ∧
  escape_of (deoptimizeInstructions Sample.PyCompile_OpcodeStackEffect [0; 2]
               Sample.boxed_graph) 0 = false.
Proof.
  split; [reflexivity|].
  apply (deoptimizeInstructions_unescaped_consumer
           Sample.PyCompile_OpcodeStackEffect [0; 2] Sample.boxed_graph 0
           {| from := 0; to := 2; value := Some AVK_Integer;
              source := Sample.mkSampleSource 0 [(2, 0%nat)];
              escaped := NoEscape; kind := AVK_Integer; position := 0%nat |}).
  - left.
  - reflexivity.
  - reflexivity.
  - reflexivity.
Defined.

Lemma deoptimizeInstructions_unescaped_producer_witness :
  escape_of MoreSamples.frame_graph 0 = true ∧
  escape_of (deoptimizeInstructions Sample.PyCompile_OpcodeStackEffect [0]
               MoreSamples.frame_graph) 0 = false.
Proof.
  split; [reflexivity|].
  apply (deoptimizeInstructions_unescaped_producer
           Sample.PyCompile_OpcodeStackEffect [0] MoreSamples.frame_graph 0
           MoreSamples.frame_edge).
  - left.
  - reflexivity.
  - reflexivity.
  - reflexivity.
Defined.

Lemma deoptimizeInstructions_keeps_escaped_witness :
  instructions (deoptimizeInstructions Sample.PyCompile_OpcodeStackEffect [4; 4]
                  MoreSamples.sum_graph) !! 4
  = Some (mkInstruction 4 Sample.BINARY_ADD 0 true).
Proof.
  apply (deoptimizeInstructions_keeps_escaped Sample.PyCompile_OpcodeStackEffect
           [4; 4] MoreSamples.sum_graph 4).
  - reflexivity.
  - reflexivity.
  - vm_compute. reflexivity.
  - vm_compute. intros [H _]. discriminate H.
  - vm_compute. intros [H _]. discriminate H.
Defined.

(** X12.  The escape flags the constructor returns depend on the order in
    which [deoptimizeInstructions] meets the instructions.  For
    [LOAD_CONST; BINARY_ADD; RETURN_VALUE] with a single recorded input of
    the addition, visiting the constant first leaves it escaped (its
    consumer is still escaped when it is examined), visiting the addition
    first clears both. *)
Theorem InstructionGraph_depends_on_traversal_order :
  ∃ g1 g2,
    [0; 2; 4] ≡ₚ [2; 0; 4] ∧
    Sample.new [0; 2; 4] OrderExample.code OrderExample.stacks = Some g1 ∧
    Sample.new [2; 0; 4] OrderExample.code OrderExample.stacks = Some g2 ∧
    escape_of g1 0 = true ∧ escape_of g1 2 = false ∧
    escape_of g2 0 = false ∧ escape_of g2 2 = false.
Proof.
  destruct (Sample.new [0; 2; 4] OrderExample.code OrderExample.stacks)
    as [g1|] eqn:H1; [|by vm_compute in H1].
  destruct (Sample.new [2; 0; 4] OrderExample.code OrderExample.stacks)
    as [g2|] eqn:H2; [|by vm_compute in H2].
  exists g1, g2. split; [apply perm_swap|].
  vm_compute in H1. injection H1 as <-.
  vm_compute in H2. injection H2 as <-.
  repeat split; by vm_compute.
Qed.

(** * Further properties of fixEdges *)

Lemma instruction_at_present m i ins :
  m !! i = Some ins → instruction_at m i = (ins, m).
Proof. intros H. unfold instruction_at. by rewrite H. Qed.

Lemma instruction_at_is_Some m i : is_Some ((instruction_at m i).2 !! i).
Proof.
  unfold instruction_at. destruct (m !! i) eqn:E; cbn [snd].
  - by rewrite E.
  - rewrite lookup_insert_eq. eauto.
Qed.

Lemma instruction_at_new m i k ins :
  m !! k = None → (instruction_at m i).2 !! k = Some ins →
  ins = default_Instruction.
Proof.
  unfold instruction_at. destruct (m !! i) eqn:E; cbn [snd]; [congruence|].
  destruct (decide (i = k)) as [->|Hne].
  - rewrite lookup_insert_eq. congruence.
  - rewrite lookup_insert_ne by done. congruence.
Qed.

Section FixEdgesMore.
Context {Source : Type}.
Implicit Types (g : @InstructionGraph Source) (e : @Edge Source).
Implicit Types (es : list (@Edge Source)) (m : gmap Z Instruction).

Lemma fixEdge_map m e :
  (fixEdge m e).2 = (instruction_at (instruction_at m (from e)).2 (to e)).2.
Proof.
  unfold fixEdge.
  by destruct (negb _), (escape (instruction_at _ (to e)).1).
Qed.

(** The entries the loop finds are left alone. *)
Lemma fixEdges_loop_present m es k ins :
  m !! k = Some ins → (fixEdges_loop m es).2 !! k = Some ins.
Proof.
  revert m. induction es as [|e es IH]; intros m Hk; [done|].
  cbn [fixEdges_loop snd]. apply IH. rewrite fixEdge_map.
  by do 2 apply instruction_at_lookup_Some.
Qed.

(** The entries the loop creates are default instructions. *)
Lemma fixEdges_loop_new m es k ins :
  m !! k = None → (fixEdges_loop m es).2 !! k = Some ins →
  ins = default_Instruction.
Proof.
  revert m. induction es as [|e es IH]; intros m Hk; [cbn; congruence|].
  cbn [fixEdges_loop snd].
  destruct ((fixEdge m e).2 !! k) as [x|] eqn:E.
  - rewrite (fixEdges_loop_present _ es k x E). intros [= <-].
    rewrite fixEdge_map in E.
    destruct ((instruction_at m (from e)).2 !! k) as [y|] eqn:E'.
    + rewrite (instruction_at_lookup_Some _ (to e) k y E') in E.
      injection E as <-. by apply (instruction_at_new m (from e) k).
    + by apply (instruction_at_new _ (to e) k x E').
  - by apply IH.
Qed.

(** Both ends of every edge have an entry after the loop. *)
Lemma fixEdges_loop_touched m es e :
  e ∈ es →
  is_Some ((fixEdges_loop m es).2 !! from e) ∧
  is_Some ((fixEdges_loop m es).2 !! to e).
Proof.
  revert m. induction es as [|x es IH]; intros m He; [by apply elem_of_nil in He|].
  cbn [fixEdges_loop snd]. apply elem_of_cons in He as [->|He]; [|by apply IH].
  rewrite fixEdge_map.
  destruct (instruction_at_is_Some m (from x)) as [a Ha].
  destruct (instruction_at_is_Some (instruction_at m (from x)).2 (to x)) as [b Hb].
  split.
  - exists a. apply fixEdges_loop_present. by apply instruction_at_lookup_Some.
  - exists b. by apply fixEdges_loop_present.
Qed.

(** With an entry for both ends of every edge, the loop leaves the map as
    it is. *)
Lemma fixEdges_loop_fixed m es :
  (∀ e, e ∈ es → is_Some (m !! from e) ∧ is_Some (m !! to e)) →
  (fixEdges_loop m es).2 = m.
Proof.
  induction es as [|x es IH]; intros Hall; [done|].
  cbn [fixEdges_loop snd].
  destruct (Hall x) as [[a Ha] [b Hb]]; [left|].
  assert (Hm : (fixEdge m x).2 = m).
  { rewrite fixEdge_map, (instruction_at_present m (from x) a Ha). cbn [snd].
    by rewrite (instruction_at_present m (to x) b Hb). }
  rewrite Hm. apply IH. intros e He. apply Hall. by right.
Qed.

Lemma paint_paint m m' e :
  (∀ k, escape_in m' k = escape_in m k) → paint m' (paint m e) = paint m e.
Proof. intros H. unfold paint. cbn. by rewrite !H. Qed.

(** X13.  [fixEdges] rewrites nothing but the transition of each edge:
    the vector keeps its length and its order, and every edge its producer,
    consumer, value, source, kind and position; the entries of the
    instruction map are left as they are, and so is every escape flag. *)
Theorem fixEdges_only_paints g :
  Forall2 (λ e e', e' = set_escaped (escaped e') e) (edges g) (edges (fixEdges g)) ∧
  (∀ k ins, instructions g !! k = Some ins →
            instructions (fixEdges g) !! k = Some ins) ∧
  (∀ k, escape_of (fixEdges g) k = escape_of g k).
Proof.
  split; [|split].
  - rewrite fixEdges_edges. apply Forall2_fmap_r, Forall_Forall2_diag, Forall_forall.
    intros e _. reflexivity.
  - intros k ins. apply fixEdges_loop_present.
  - apply fixEdges_escape_of.
Qed.

(** X14.  [fixEdges] is idempotent: a second run changes neither an edge
    nor the instruction map. *)
Theorem fixEdges_idempotent g : fixEdges (fixEdges g) = fixEdges g.
Proof.
  apply graph_eq.
  - unfold fixEdges at 1. cbn [instructions]. apply fixEdges_loop_fixed.
    intros e. rewrite fixEdges_edges.
    intros (e0 & -> & He0)%list_elem_of_fmap.
    exact (fixEdges_loop_touched (instructions g) (edges g) e0 He0).
  - rewrite (fixEdges_edges (fixEdges g)), fixEdges_edges.
    rewrite <- list_fmap_compose. apply list_fmap_ext. intros _ e _. cbn.
    apply paint_paint. intros k. apply (fixEdges_escape_of g k).
Qed.

(** X15.  An edge whose producer has no entry in the instruction map (a
    value that comes from the frame, producer [-1]) is painted as coming
    from a non-escaped instruction: [Unbox] if its consumer is escaped,
    [NoEscape] otherwise.  Reading [instructions[edge.from]] creates the
    entry: after [fixEdges] the map holds a default instruction, with
    index 0, opcode 0 and no escape, under the key of that producer. *)
Theorem fixEdges_missing_producer g e :
  e ∈ edges g →
  instructions g !! from e = None →
  set_escaped (if escape_of g (to e) then Unbox else NoEscape) e
    ∈ edges (fixEdges g) ∧
  instructions (fixEdges g) !! from e = Some default_Instruction.
Proof.
  intros He Hnone. split.
  - rewrite fixEdges_edges. apply list_elem_of_fmap. exists e. split; [|done].
    unfold paint, escape_in, escape_of. rewrite Hnone.
    by destruct (instructions g !! to e) as [[? ? ? []]|].
  - destruct (fixEdges_loop_touched (instructions g) (edges g) e He) as [[x Hx] _].
    unfold fixEdges. cbn [instructions]. rewrite Hx. f_equal.
    by apply (fixEdges_loop_new (instructions g) (edges g) (from e)).
Qed.

End FixEdgesMore.

Lemma fixEdges_only_paints_witness :
  instructions (fixEdges Sample.boxed_graph) !! 0
  = Some (mkInstruction 0 Sample.LOAD_CONST 0 true).
Proof.
  destruct (fixEdges_only_paints Sample.boxed_graph) as (_ & Hkeep & _).
  apply Hkeep. reflexivity.
Defined.

Lemma fixEdges_missing_producer_witness :
  set_escaped Unbox MoreSamples.frame_edge ∈ edges (fixEdges MoreSamples.frame_graph) ∧
  instructions (fixEdges MoreSamples.frame_graph) !! (-1) = Some default_Instruction.
Proof.
  apply (fixEdges_missing_producer MoreSamples.frame_graph MoreSamples.frame_edge).
  - left.
  - reflexivity.
Defined.

(** * Further properties of the constructor *)

Lemma reflagged_refl m : reflagged m m.
Proof. intros i ins H. exists (escape ins). by rewrite set_escape_same. Qed.

Lemma reflagged_trans m1 m2 m3 : reflagged m1 m2 → reflagged m2 m3 → reflagged m1 m3.
Proof.
  intros H12 H23 i ins H1. destruct (H12 _ _ H1) as [b H2].
  destruct (H23 _ _ H2) as [b' H3]. exists b'. by rewrite H3.
Qed.

Lemma reflagged_alter m k b : reflagged m (alter (set_escape b) k m).
Proof.
  intros i ins Hi. destruct (decide (k = i)) as [->|Hne].
  - exists b. by rewrite lookup_alter_eq, Hi.
  - exists (escape ins). by rewrite lookup_alter_ne, set_escape_same.
Qed.

Lemma reflagged_instruction_at m i : reflagged m (instruction_at m i).2.
Proof.
  intros k ins Hk. exists (escape ins).
  rewrite set_escape_same. by apply instruction_at_lookup_Some.
Qed.

Section ConstructorMore.
Context {Source : Type}.
Variable producer : Source → Z.
Variable isConsumedBy : Source → Z → option nat.
Variable supportsUnboxing : Z → bool.
Variable supportsEscaping : AbstractValueKind → bool.
Variable PyCompile_OpcodeStackEffect : Z → Z → Z.
Implicit Types (g : @InstructionGraph Source) (e : @Edge Source).
Implicit Types (stacks : gmap Z (list (AbstractValueWithSources Source))).

Abbreviation construct :=
  (InstructionGraph_new producer isConsumedBy supportsUnboxing supportsEscaping
     PyCompile_OpcodeStackEffect).
Abbreviation record := (recordInstruction producer isConsumedBy).
Abbreviation from_stack := (edge_from_stack producer isConsumedBy).

(** The graph before the passes, and what the passes make of it. *)
Lemma InstructionGraph_new_inv order1 order2 code stacks g :
  construct order1 order2 code stacks = Some g →
  ∃ g0 m,
    decode producer isConsumedBy stacks 0 code empty_graph = Some g0 ∧
    edges g = paint m <$> edges g0 ∧
    reflagged (instructions g0) (instructions g).
Proof.
  unfold InstructionGraph_new.
  destruct (decode _ _ stacks 0 code _) as [g0|] eqn:Hdec; [|done].
  intros [= <-]. unfold fixLocals.
  set (gf := fixInstructions supportsUnboxing supportsEscaping order1 g0).
  set (gd := deoptimizeInstructions PyCompile_OpcodeStackEffect order2 gf).
  exists g0, (instructions gd). split; [done|]. split.
  - rewrite fixEdges_edges. f_equal. transitivity (edges gf).
    + apply (deoptimizeInstructions_lowering PyCompile_OpcodeStackEffect order2 gf).
    + apply (fixInstructions_lookup supportsUnboxing supportsEscaping order1 g0).
  - eapply reflagged_trans; [|intros i ins; eexists (escape ins);
                              rewrite set_escape_same;
                              by apply fixEdges_loop_present].
    eapply (reflagged_trans _ (instructions gf)).
    + intros i ins Hi.
      destruct (fixInstructions_lookup supportsUnboxing supportsEscaping order1 g0)
        as [_ Hl]. fold gf in Hl. rewrite Hl, Hi. cbn.
      destruct (_ && _); [by exists true|].
      exists (escape ins). by rewrite set_escape_same.
    + unfold gd, deoptimizeInstructions.
      apply (for_each_instruction_rel
               (λ g1 g2, reflagged (instructions g1) (instructions g2)));
        [intros; apply reflagged_refl|intros; by eapply reflagged_trans|].
      intros first second g1 _. unfold deoptimizeInstruction.
      destruct (negb (escape second)); [apply reflagged_refl|].
      destruct (stackEffectWrong _ _ _ _); [apply reflagged_alter|].
      destruct (getEdges g1 first) as [|in0 [|in1 ins]];
        destruct (getEdgesFrom g1 first) as [|out0 [|out1 outs]];
        try apply reflagged_refl.
      * destruct (negb _); cbn [instructions with_instructions revert].
        -- eapply reflagged_trans; [apply reflagged_instruction_at|apply reflagged_alter].
        -- apply reflagged_instruction_at.
      * destruct (negb _); cbn [instructions with_instructions revert].
        -- eapply reflagged_trans; [apply reflagged_instruction_at|apply reflagged_alter].
        -- apply reflagged_instruction_at.
Qed.

(** Decoding bytecode without [EXTENDED_ARG]. *)
Lemma decode_plain stacks code :
  Forall (λ unit, unit.1 ≠ EXTENDED_ARG) code →
  ∀ curByte g,
  ∃ g', decode producer isConsumedBy stacks curByte code g = Some g' ∧
        (∀ (n : nat) op arg, code !! n = Some (op, arg) →
           instructions g' !! (curByte + 2 * Z.of_nat n)
           = Some (mkInstruction (curByte + 2 * Z.of_nat n) op arg false)) ∧
        (∀ i ins, i < curByte → instructions g !! i = Some ins →
           instructions g' !! i = Some ins).
Proof.
  induction 1 as [|[op arg] code Hop _ IH]; intros curByte g.
  - exists g. split; [done|]. split; [|done]. intros n ? ?. by rewrite lookup_nil.
  - cbn [decode]. cbn [fst] in Hop. rewrite decide_False by done.
    destruct (IH (curByte + SIZEOF_CODEUNIT) (record stacks curByte op arg g))
      as (g' & Hdec & Hunits & Hbelow).
    unfold SIZEOF_CODEUNIT in *.
    exists g'. split; [done|]. split.
    + intros [|n] op' arg' Hn.
      * injection Hn as <- <-. rewrite Z.mul_0_r, Z.add_0_r.
        apply Hbelow; [lia|]. apply lookup_insert_eq.
      * cbn in Hn. specialize (Hunits n op' arg' Hn).
        replace (curByte + 2 * Z.of_nat (S n)) with (curByte + 2 + 2 * Z.of_nat n)
          by lia.
        exact Hunits.
    + intros i ins Hlt Hi. apply Hbelow; [lia|].
      cbn [recordInstruction instructions].
      rewrite lookup_insert_ne by lia. done.
Qed.

(** X16.  For bytecode without [EXTENDED_ARG] the constructor succeeds and
    the graph holds, for the code unit number [n], an instruction under the
    key [2 * n] with that index, opcode and oparg. *)
Theorem InstructionGraph_records_every_unit order1 order2 code stacks :
  Forall (λ unit, unit.1 ≠ EXTENDED_ARG) code →
  ∃ g, InstructionGraph_new producer isConsumedBy supportsUnboxing
         supportsEscaping PyCompile_OpcodeStackEffect order1 order2 code stacks
       = Some g ∧
       ∀ (n : nat) op arg, code !! n = Some (op, arg) →
         ∃ b, instructions g !! (2 * Z.of_nat n)
              = Some (mkInstruction (2 * Z.of_nat n) op arg b).
Proof.
  intros Hplain.
  destruct (decode_plain stacks code Hplain 0 empty_graph) as (g0 & Hdec & Hunits & _).
  destruct (InstructionGraph_new_kept producer isConsumedBy supportsUnboxing
              supportsEscaping PyCompile_OpcodeStackEffect order1 order2
              code stacks g0 Hdec) as (g & Hg & _).
  exists g. split; [done|]. intros n op arg Hn.
  destruct (InstructionGraph_new_inv _ _ _ _ _ Hg) as (g0' & m & Hdec' & _ & Hre).
  assert (g0' = g0) as -> by (unfold empty_graph in *; congruence).
  destruct (Hre _ _ (Hunits n op arg Hn)) as [b Hb].
  exists b. rewrite Z.add_0_l in Hb. exact Hb.
Qed.

Lemma stackEdges_from_stack stacks index stack e :
  stacks !! index = Some stack →
  e ∈ stackEdges producer isConsumedBy index stack →
  to e = index ∧ from_stack stacks e.
Proof.
  intros Hstack. unfold stackEdges. rewrite list_elem_of_omap.
  intros (si & Hsi & He).
  destruct (Sources si) as [s|] eqn:Hs; [|done].
  destruct (isConsumedBy s index) as [p|] eqn:Hp; [|done].
  injection He as <-. split; [done|].
  exists stack, si, s. cbn. by repeat split.
Qed.

Lemma same_target_sorted (l : list (@Edge Source)) index :
  Forall (λ e, to e = index) l → StronglySorted (λ a b, to a ≤ to b) l.
Proof.
  induction 1 as [|e l He Hl IH]; constructor; [done|].
  eapply Forall_impl; [exact Hl|]. cbn. intros x Hx. lia.
Qed.

Lemma recordInstruction_edges_invariant stacks curByte index opcode oparg g :
  curByte ≤ index →
  edges_invariant producer isConsumedBy stacks curByte g →
  edges_invariant producer isConsumedBy stacks (index + SIZEOF_CODEUNIT)
    (record stacks index opcode oparg g).
Proof.
  intros Hle (Hfrom & Hsome & Hsorted & Hbelow). unfold SIZEOF_CODEUNIT.
  assert (Hold : Forall (λ e, is_Some
            (<[index := mkInstruction index opcode oparg false]> (instructions g)
               !! to e)) (edges g)).
  { eapply Forall_impl; [exact Hsome|]. cbn. intros e He.
    apply lookup_insert_is_Some'. by right. }
  unfold edges_invariant, recordInstruction, InterpreterStack in *.
  cbn [instructions edges].
  destruct (stacks !! index) as [stack|] eqn:Hstack; cbn zeta.
  - assert (Hnew : ∀ e, e ∈ stackEdges producer isConsumedBy index stack →
                        to e = index ∧ from_stack stacks e)
      by (intros e; by apply stackEdges_from_stack).
    split; [|split; [|split]].
    + apply Forall_app_2; [done|]. apply Forall_forall. intros e He.
      by apply Hnew.
    + apply Forall_app_2; [done|]. apply Forall_forall. intros e He.
      destruct (Hnew e He) as [-> _]. rewrite lookup_insert_eq. eauto.
    + apply StronglySorted_app. split; [|split; [done|]].
      * intros x1 x2 H1 H2. destruct (Hnew x2 H2) as [-> _].
        rewrite Forall_forall in Hbelow. specialize (Hbelow x1 H1). cbn in Hbelow. lia.
      * apply (same_target_sorted _ index), Forall_forall. intros e He.
        by apply Hnew.
    + apply Forall_app_2.
      * eapply Forall_impl; [exact Hbelow|]. cbn. intros; lia.
      * apply Forall_forall. intros e He. destruct (Hnew e He) as [-> _]. lia.
  - split; [done|]. split; [done|]. split; [done|].
    eapply Forall_impl; [exact Hbelow|]. cbn. intros; lia.
Qed.

Lemma decode_edges_invariant stacks (n : nat) :
  ∀ code curByte g g',
    (length code ≤ n)%nat →
    edges_invariant producer isConsumedBy stacks curByte g →
    decode producer isConsumedBy stacks curByte code g = Some g' →
    ∃ curByte', edges_invariant producer isConsumedBy stacks curByte' g'.
Proof.
  induction n as [|n IH]; intros code curByte g g' Hlen Hg.
  - destruct code; [|cbn in Hlen; lia]. cbn. intros [= <-]. eauto.
  - destruct code as [|[opcode oparg] rest]; [cbn; intros [= <-]; eauto|].
    cbn [decode]. cbn [length] in Hlen.
    destruct (decide (opcode = EXTENDED_ARG)) as [Hext|Hext].
    + destruct rest as [|[opcode' oparg'] rest']; [done|].
      cbn [length] in Hlen. apply IH; [lia|].
      apply (recordInstruction_edges_invariant stacks curByte);
        [unfold SIZEOF_CODEUNIT; lia|].
      destruct Hg as (Hfrom & Hsome & Hsorted & Hbelow).
      repeat split; try done. cbn [instructions edges].
      eapply Forall_impl; [exact Hsome|]. cbn. intros e He.
      apply lookup_insert_is_Some'. by right.
    + apply IH; [lia|].
      by apply (recordInstruction_edges_invariant stacks curByte).
Qed.

Lemma from_stack_paint stacks m e : from_stack stacks e → from_stack stacks (paint m e).
Proof. done. Qed.

(** X17.  Every edge of the graph the constructor returns was built from
    an entry of the stack recorded at its consumer: the entry has a source,
    the source reports the consumer at the position of the edge, the
    producer of the edge is the producer of the source, its value is the
    value of the entry and its kind the kind of that value, or [AVK_Any]
    when the entry has no value; and the consumer is an instruction of the
    graph. *)
Theorem InstructionGraph_edges_come_from_stacks order1 order2 code stacks g e :
  InstructionGraph_new producer isConsumedBy supportsUnboxing
    supportsEscaping PyCompile_OpcodeStackEffect order1 order2 code stacks = Some g →
  e ∈ edges g →
  edge_from_stack producer isConsumedBy stacks e ∧ is_Some (instructions g !! to e).
Proof.
  intros Hg He.
  destruct (InstructionGraph_new_inv _ _ _ _ _ Hg) as (g0 & m & Hdec & Hedges & Hre).
  destruct (decode_edges_invariant stacks (length code) code 0 empty_graph g0)
    as (pc & Hfrom & Hsome & _); [done| |done|].
  { repeat split; constructor. }
  rewrite Hedges in He. apply list_elem_of_fmap in He as (e0 & -> & He0).
  rewrite Forall_forall in Hfrom, Hsome. split.
  - apply from_stack_paint. by apply Hfrom.
  - destruct (Hsome e0 He0) as [ins Hins]. destruct (Hre _ _ Hins) as [b Hb].
    cbn. eauto.
Qed.

(** X18.  The edge vector of the graph the constructor returns is ordered
    by consumer: an edge never precedes an edge whose consumer has a
    smaller index. *)
Theorem InstructionGraph_edges_ordered_by_consumer order1 order2 code stacks g :
  InstructionGraph_new producer isConsumedBy supportsUnboxing
    supportsEscaping PyCompile_OpcodeStackEffect order1 order2 code stacks = Some g →
  StronglySorted (λ a b, to a ≤ to b) (edges g).
Proof.
  intros Hg.
  destruct (InstructionGraph_new_inv _ _ _ _ _ Hg) as (g0 & m & Hdec & -> & _).
  destruct (decode_edges_invariant stacks (length code) code 0 empty_graph g0)
    as (pc & _ & _ & Hsorted & _); [done| |done|].
  { repeat split; constructor. }
  by apply (StronglySorted_fmap (paint m) (λ a b, to a ≤ to b) (λ a b, to a ≤ to b)).
Qed.

End ConstructorMore.

Lemma InstructionGraph_records_every_unit_witness :
  ∃ g, Sample.new Sample.add_order Sample.add_code Sample.add_stacks = Some g ∧
       ∃ b, instructions g !! 4 = Some (mkInstruction 4 Sample.BINARY_ADD 0 b).
Proof.
  destruct (InstructionGraph_records_every_unit Sample.producer Sample.isConsumedBy
              Sample.supportsUnboxing Sample.supportsEscaping
              Sample.PyCompile_OpcodeStackEffect Sample.add_order Sample.add_order
              Sample.add_code Sample.add_stacks)
    as (g & Hg & Hunits).
  - unfold Sample.add_code.
    repeat (constructor; [vm_compute; discriminate|]). constructor.
  - exists g. split; [exact Hg|].
    exact (Hunits 2%nat Sample.BINARY_ADD 0 eq_refl).
Defined.

Lemma InstructionGraph_edges_come_from_stacks_witness :
  ∃ g e,
    Sample.new Sample.add_order Sample.add_code Sample.add_stacks = Some g ∧
    e ∈ edges g ∧
    edge_from_stack Sample.producer Sample.isConsumedBy Sample.add_stacks e ∧
    is_Some (instructions g !! to e).
Proof.
  destruct (Sample.new Sample.add_order Sample.add_code Sample.add_stacks)
    as [g|] eqn:Hg; [|by vm_compute in Hg].
  destruct (edges g) as [|e l] eqn:He.
  { vm_compute in Hg. injection Hg as <-. by vm_compute in He. }
  assert (Hin : e ∈ edges g) by (rewrite He; left).
  exists g, e. split; [done|]. split; [exact Hin|].
  exact (InstructionGraph_edges_come_from_stacks Sample.producer Sample.isConsumedBy
           Sample.supportsUnboxing Sample.supportsEscaping
           Sample.PyCompile_OpcodeStackEffect Sample.add_order Sample.add_order
           Sample.add_code Sample.add_stacks g e Hg Hin).
Defined.

Lemma InstructionGraph_edges_ordered_by_consumer_witness :
  ∃ g, Sample.new Sample.add_order Sample.add_code Sample.add_stacks = Some g ∧
       StronglySorted (λ a b, to a ≤ to b) (edges g).
Proof.
  destruct (Sample.new Sample.add_order Sample.add_code Sample.add_stacks)
    as [g|] eqn:Hg; [|by vm_compute in Hg].
  exists g. split; [done|].
  exact (InstructionGraph_edges_ordered_by_consumer Sample.producer
           Sample.isConsumedBy Sample.supportsUnboxing Sample.supportsEscaping
           Sample.PyCompile_OpcodeStackEffect Sample.add_order Sample.add_order
           Sample.add_code Sample.add_stacks g Hg).
Defined.

(** * Further properties of the stack of an interpreter state *)

(** X19.  Pushing an entry and popping it gives the entry and the state
    back: [pop_no_escape] after [push] returns the pushed entry, the state
    before the push and an untouched heap of sources, and [pop] after
    [push] returns its value and the same state, with the source of the
    entry escaped.  [push] grows the stack by one, puts the entry at the
    index of the old size and moves no other entry. *)
Theorem push_then_pop value st heap :
  pop_no_escape (push value st) heap = Some (value, st, heap) ∧
  pop (push value st) heap = Some (Value value, st, escapes value heap) ∧
  stack_size (push value st) = S (stack_size st) ∧
  stack_at (push value st) (stack_size st) = Some value ∧
  (∀ index, (index < stack_size st)%nat →
            stack_at (push value st) index = stack_at st index).
Proof.
  destruct st as [stack locals].
  unfold pop_no_escape, pop, push, stack_size, stack_at. cbn [m_stack m_locals].
  rewrite last_snoc, removelast_last, length_app. cbn [length].
  repeat split; try done.
  - lia.
  - by rewrite list_lookup_middle.
  - intros index Hlt. by rewrite lookup_app_l.
Qed.

Lemma push_then_pop_witness :
  stack_at (push (sample_entry 2%positive)
              {| m_stack := [sample_entry 1%positive]; m_locals := [] |}) 0
  = Some (sample_entry 1%positive).
Proof.
  destruct (push_then_pop (sample_entry 2%positive)
              {| m_stack := [sample_entry 1%positive]; m_locals := [] |} sample_heap)
    as (_ & _ & _ & _ & Hbelow).
  rewrite (Hbelow 0%nat); [reflexivity|]. cbn. lia.
Defined.

(** * A single EXTENDED_ARG prefix *)

Section ExtendedArgMore.
Context {Source : Type}.
Variable producer : Source → Z.
Variable isConsumedBy : Source → Z → option nat.
Variable supportsUnboxing : Z → bool.
Variable supportsEscaping : AbstractValueKind → bool.
Variable PyCompile_OpcodeStackEffect : Z → Z → Z.
Implicit Types (g : @InstructionGraph Source).
Implicit Types (stacks : gmap Z (list (AbstractValueWithSources Source))).

(** The decoding loop does not touch the entries below the offset it has
    reached. *)
Lemma decode_below stacks (n : nat) :
  ∀ code curByte g g' i ins,
    (length code ≤ n)%nat →
    decode producer isConsumedBy stacks curByte code g = Some g' →
    i < curByte → instructions g !! i = Some ins →
    instructions g' !! i = Some ins.
Proof.
  induction n as [|n IH]; intros code curByte g g' i ins Hlen.
  - destruct code; [|cbn in Hlen; lia]. cbn. by intros [= <-].
  - destruct code as [|[opcode oparg] rest]; [cbn; by intros [= <-]|].
    cbn [decode]. cbn [length] in Hlen. unfold SIZEOF_CODEUNIT.
    destruct (decide (opcode = EXTENDED_ARG)) as [Hext|Hext].
    + destruct rest as [|[opcode' oparg'] rest']; [done|].
      cbn [length] in Hlen. intros Hdec Hlt Hi.
      apply (IH _ _ _ _ i ins) in Hdec; [done|lia|lia|].
      cbn [recordInstruction instructions].
      by rewrite !lookup_insert_ne by lia.
    + intros Hdec Hlt Hi.
      apply (IH _ _ _ _ i ins) in Hdec; [done|lia|lia|].
      cbn [recordInstruction instructions].
      by rewrite lookup_insert_ne by lia.
Qed.

(** Decoding a prefix without [EXTENDED_ARG] reaches the offset after it. *)
Lemma decode_plain_app stacks pre :
  Forall (λ unit, unit.1 ≠ EXTENDED_ARG) pre →
  ∀ rest curByte g,
  ∃ g1, decode producer isConsumedBy stacks curByte (pre ++ rest) g =
        decode producer isConsumedBy stacks
          (curByte + 2 * Z.of_nat (length pre)) rest g1.
Proof.
  induction 1 as [|[op arg] pre Hop _ IH]; intros rest curByte g.
  - exists g. cbn [length app]. by rewrite Z.mul_0_r, Z.add_0_r.
  - cbn [app decode]. cbn [fst] in Hop. rewrite decide_False by done.
    destruct (IH rest (curByte + SIZEOF_CODEUNIT)
                (recordInstruction producer isConsumedBy stacks curByte op arg g))
      as [g1 Hg1].
    exists g1. rewrite Hg1. unfold SIZEOF_CODEUNIT. f_equal. cbn [length]. lia.
Qed.

(** X20.  The first [EXTENDED_ARG] of the bytecode is folded into the code
    unit that follows it: the graph holds the prefix itself under its own
    index, and under the next index an instruction with the opcode of the
    following unit and the oparg [(a << 8) | b]. *)
Theorem InstructionGraph_first_prefix_folded order1 order2 pre a op b post stacks g :
  Forall (λ unit, unit.1 ≠ EXTENDED_ARG) pre →
  InstructionGraph_new producer isConsumedBy supportsUnboxing supportsEscaping
    PyCompile_OpcodeStackEffect order1 order2
    (pre ++ (EXTENDED_ARG, a) :: (op, b) :: post) stacks = Some g →
  let index := 2 * Z.of_nat (length pre) in
  ∃ b1 b2,
    instructions g !! index = Some (mkInstruction index EXTENDED_ARG a b1) ∧
    instructions g !! (index + 2)
    = Some (mkInstruction (index + 2) op (Z.lor (Z.shiftl a 8) b) b2).
Proof.
  intros Hpre Hg index.
  destruct (InstructionGraph_new_inv _ _ _ _ _ _ _ _ _ _ Hg)
    as (g0 & m & Hdec & _ & Hre).
  destruct (decode_plain_app stacks pre Hpre
              ((EXTENDED_ARG, a) :: (op, b) :: post) 0 empty_graph) as [g1 Hg1].
  rewrite Hg1 in Hdec. rewrite Z.add_0_l in Hdec. fold index in Hdec.
  cbn [decode] in Hdec. rewrite decide_True in Hdec by done.
  unfold SIZEOF_CODEUNIT in Hdec.
  assert (H0 : instructions g0 !! index
               = Some (mkInstruction index EXTENDED_ARG a false)).
  { apply (decode_below stacks (length post) post _ _ g0 index _
             (Nat.le_refl _) Hdec); [lia|].
    cbn [recordInstruction instructions].
    rewrite lookup_insert_ne by lia. apply lookup_insert_eq. }
  assert (H2 : instructions g0 !! (index + 2)
               = Some (mkInstruction (index + 2) op (Z.lor (Z.shiftl a 8) b) false)).
  { apply (decode_below stacks (length post) post _ _ g0 (index + 2) _
             (Nat.le_refl _) Hdec); [lia|].
    apply lookup_insert_eq. }
  destruct (Hre _ _ H0) as [b1 Hb1]. destruct (Hre _ _ H2) as [b2 Hb2].
  by exists b1, b2.
Qed.

End ExtendedArgMore.

Lemma InstructionGraph_first_prefix_folded_witness :
  ∃ g b1 b2,
    Sample.new Sample.add_order
      ([(Sample.LOAD_CONST, 0)] ++
       (EXTENDED_ARG, 1) :: (Sample.LOAD_CONST, 2) :: [(Sample.RETURN_VALUE, 0)]) ∅
    = Some g ∧
    instructions g !! 2 = Some (mkInstruction 2 EXTENDED_ARG 1 b1) ∧
    instructions g !! 4 = Some (mkInstruction 4 Sample.LOAD_CONST 258 b2).
Proof.
  destruct (Sample.new Sample.add_order
              ([(Sample.LOAD_CONST, 0)] ++
               (EXTENDED_ARG, 1) :: (Sample.LOAD_CONST, 2)
               :: [(Sample.RETURN_VALUE, 0)]) ∅) as [g|] eqn:Hg;
    [|by vm_compute in Hg].
  destruct (InstructionGraph_first_prefix_folded Sample.producer Sample.isConsumedBy
              Sample.supportsUnboxing Sample.supportsEscaping
              Sample.PyCompile_OpcodeStackEffect Sample.add_order Sample.add_order
              [(Sample.LOAD_CONST, 0)] 1 Sample.LOAD_CONST 2
              [(Sample.RETURN_VALUE, 0)] ∅ g) as (b1 & b2 & H1 & H2).
  - repeat (constructor; [vm_compute; discriminate|]). constructor.
  - exact Hg.
  - exists g, b1, b2. split; [done|]. split; [exact H1|exact H2].
Defined.
